(** * guppy: the Elasticsearch access layer (src/server/es/index.js)

    A shallow embedding of class [ES]: the field-type cache built by
    [initialize], the single-page [query], the cursor-driven [scrollQuery]
    and the synchronous lookups [getESFields] and [getESIndexByType].

    JavaScript objects that the code uses as dictionaries are finite maps;
    engine responses, whose key order the code reads, are association
    lists.  An [async] method is a function from the world (the receiver
    [this], the engine, the record of issued requests and the log) to the
    state of the promise it returns and the world it leaves behind.  The
    constructor (client creation and the ping) is not part of the model:
    the client is a parameter. *)

From Stdlib Require Import ZArith String List Lia.
From stdpp Require Import base option gmap strings list fin_maps.

(** ** JavaScript values *)

(** The data that travels through the layer untouched: filters, sort
    specifications, documents and the values of a query body.  Numbers
    are never computed on, only carried. *)
#[warnings="-register-all"]
Inductive JsVal : Type :=
| JUndefined
| JNull
| JBool (b : bool)
| JNum (z : Z)
| JStr (s : string)
| JArr (l : list JsVal)
| JObj (m : gmap string JsVal).

(** [typeof v === 'undefined' || v === null] *)
Definition nullish (v : JsVal) : bool :=
  match v with
  | JUndefined | JNull => true
  | _ => false
  end.

(** ToBoolean, as used by [filter ? ... : ...]. *)
Definition truthy (v : JsVal) : bool :=
  match v with
  | JUndefined | JNull => false
  | JBool b => b
  | JNum z => negb (z =? 0)%Z
  | JStr s => negb (String.length s =? 0)%nat
  | JArr _ | JObj _ => true
  end.

(** ToBoolean of an argument documented as a string that the caller may
    leave out: [undefined] and the empty string are falsy. *)
Definition truthy_name (x : option string) : bool :=
  match x with
  | None => false
  | Some s => negb (String.length s =? 0)%nat
  end.

(** [Object.keys(o)] and [o[key]] on an object used as a dictionary: a
    plain object whose keys are ordinary own data properties, so that
    [o[key] = v] adds or replaces that one key. *)
Definition Object_keys {V} (o : gmap string V) : list string :=
  (map_to_list o).*1.

Definition obj_get (o : gmap string JsVal) (key : string) : JsVal :=
  default JUndefined (o !! key).

(** The double quote character, for the messages of the source's template
    literals. *)
Definition dquote : string := String (Ascii.ascii_of_nat 34) EmptyString.

(** [arr.join(sep)] on an array of strings. *)
Definition join (sep : string) (arr : list string) : string :=
  String.concat sep arr.

(** [_.difference(array, values)]: the elements of [array] that are not in
    [values], in the order of [array]; an [array] that is not an array
    gives the empty array. *)
Definition difference (array : option (list string)) (values : list string)
  : list string :=
  match array with
  | None => []
  | Some arr => filter (λ x, x ∉ values) arr
  end.

(** ** Errors and completions *)

(** The error object a failed transport request rejects with. *)
Record TransportError := { message : string }.

Inductive JsError :=
| CodedError (code : Z) (msg : string)
| TypeError
| Upstream (err : TransportError).

(** Completion of synchronous code: a value is returned or an error is
    thrown. *)
Inductive Completion (A : Type) :=
| Return (a : A)
| Throw (e : JsError).
Arguments Return {A} a.
Arguments Throw {A} e.

#[global] Instance completion_ret : MRet Completion := λ A a, Return a.
#[global] Instance completion_bind : MBind Completion := λ A B f c,
  match c with
  | Return a => f a
  | Throw e => Throw e
  end.

(** State of the promise an [async] method returns.  [Pending] is the
    promise of a scroll loop that has not left the loop within the number
    of iterations the model was run for. *)
Inductive Promise (A : Type) :=
| Fulfilled (a : A)
| Rejected (e : JsError)
| Pending.
Arguments Fulfilled {A} a.
Arguments Rejected {A} e.
Arguments Pending {A}.

(** ** Configuration and cache *)

Record IndexConfig := { index : string; type : string }.

Record ESConfig := { host : string; indices : list IndexConfig }.

(** The object [_getESFieldsTypes] builds for one index: field name to the
    [type] of its mapping, which nested fields do not have.  Kept in
    insertion order, the order of [Object.keys]. *)
Definition FieldTypeMap := list (string * option string).

(** [acc[field] = v] on an object kept in insertion order. *)
Fixpoint assign {V} (acc : list (string * V)) (key : string) (v : V)
  : list (string * V) :=
  match acc with
  | [] => [(key, v)]
  | (k, w) :: rest =>
      if decide (k = key) then (k, v) :: rest else (k, w) :: assign rest key v
  end.

(** [o[key]] on an object kept in insertion order. *)
Fixpoint lookup_key {V} (o : list (string * V)) (key : string) : option V :=
  match o with
  | [] => None
  | (k, v) :: rest => if decide (k = key) then Some v else lookup_key rest key
  end.

(** The receiver.  [fieldTypes] is [None] until [initialize] first runs
    (the constructor does not set it); an index maps to [None] when the
    value stored under it is [undefined]. *)
Record ES := {
  config : ESConfig;
  fieldTypes : option (gmap string (option FieldTypeMap))
}.

(** One record of the object [getESFields] builds. *)
Record ESFields := {
  fields_index : string;
  fields_type : string;
  fields : list string
}.

(** What [getESFields] returns: the whole object [res], or [res[esIndex]],
    which is [undefined] for an index that is not configured. *)
Inductive FieldsResult :=
| AllIndices (res : gmap string ESFields)
| OneIndex (r : option ESFields).

(** ** The engine *)

(** Body of a search or scroll response: the cursor handle and the array
    [hits.hits]. *)
Record Hit := { _source : JsVal }.

Record SearchBody := {
  _scroll_id : option string;
  hits : list Hit
}.

Record SearchResponse := { body : SearchBody }.

(** Body of a mapping response: alias, then [mappings], then document
    type, then [properties], then field, then [type]. *)
Record FieldMapping := { field_type : option string }.

Record TypeMapping := { properties : option (list (string * FieldMapping)) }.

Record IndexMapping := { mappings : list (string * TypeMapping) }.

Record MappingResponse := { mapping_body : list (string * IndexMapping) }.

Record SearchParams := {
  search_index : option string;
  search_type : option string;
  search_body : gmap string JsVal;
  search_scroll : option string;
  search_size : option N;
  search_source : option (list string);
  search_sort : JsVal
}.

Record ScrollParams := { scroll_id : string; scroll_ttl : string }.

Record ClearScrollParams := { clear_scroll_id : option string }.

Record GetMappingParams := { mapping_index : string; mapping_type : string }.

(** How a transport request settles. *)
Inductive Reply (A : Type) :=
| Replied (a : A)
| Failed (err : TransportError).
Arguments Replied {A} a.
Arguments Failed {A} err.

(** The client: each request is answered from the engine's state and
    moves it. *)
Record Client (σ : Type) := {
  client_search : SearchParams → σ → Reply SearchResponse * σ;
  client_scroll : ScrollParams → σ → Reply SearchResponse * σ;
  client_clearScroll : ClearScrollParams → σ → Reply () * σ;
  client_getMapping : GetMappingParams → σ → Reply MappingResponse * σ
}.
Arguments client_search {σ} _ _ _.
Arguments client_scroll {σ} _ _ _.
Arguments client_clearScroll {σ} _ _ _.
Arguments client_getMapping {σ} _ _ _.

(** The record of what was asked of the engine, oldest first, each request
    with how it settled. *)
Inductive Call :=
| CSearch (p : SearchParams)
| CScroll (p : ScrollParams)
| CClearScroll (p : ClearScrollParams)
| CGetMapping (p : GetMappingParams).

Inductive Outcome :=
| Succeeded
| FailedWith (err : TransportError).

Definition outcome_of {A} (r : Reply A) : Outcome :=
  match r with
  | Replied _ => Succeeded
  | Failed err => FailedWith err
  end.

(** Log lines: the first argument of each logging call. *)
Inductive LogEntry :=
| LogInfo (text : string)
| LogDebug (text : string)
| LogError (text : string)
| ConsoleTrace (text : string).

Definition is_clearScroll (ev : Call * Outcome) : bool :=
  match ev.1 with
  | CClearScroll _ => true
  | _ => false
  end.

Definition is_page_fetch (ev : Call * Outcome) : bool :=
  match ev.1 with
  | CSearch _ | CScroll _ => true
  | _ => false
  end.

(** ** The world an [async] method runs in *)

Record World (σ : Type) := {
  this : ES;
  engine : σ;
  calls : list (Call * Outcome);
  logs : list LogEntry
}.
Arguments this {σ} _.
Arguments engine {σ} _.
Arguments calls {σ} _.
Arguments logs {σ} _.

Definition Async (σ A : Type) : Type := World σ → Promise A * World σ.

#[global] Instance async_ret {σ} : MRet (Async σ) := λ A a w, (Fulfilled a, w).
#[global] Instance async_bind {σ} : MBind (Async σ) := λ A B f c w,
  match c w with
  | (Fulfilled a, w') => f a w'
  | (Rejected e, w') => (Rejected e, w')
  | (Pending, w') => (Pending, w')
  end.

(** [throw e] *)
Definition throw {σ A} (e : JsError) : Async σ A := λ w, (Rejected e, w).

(** A synchronous completion inside an [async] method. *)
Definition lift {σ A} (c : Completion A) : Async σ A :=
  match c with
  | Return a => mret a
  | Throw e => throw e
  end.

Definition add_log {σ} (w : World σ) (entry : LogEntry) : World σ :=
  {| this := this w; engine := engine w; calls := calls w;
     logs := logs w ++ [entry] |}.

Definition add_call {σ} (w : World σ) (call : Call) (o : Outcome) (s : σ)
  : World σ :=
  {| this := this w; engine := s;
     calls := calls w ++ [(call, o)]; logs := logs w |}.

Definition log {σ} (entry : LogEntry) : Async σ () := λ w,
  (Fulfilled (), add_log w entry).

Definition get_this {σ} : Async σ ES := λ w, (Fulfilled (this w), w).

Definition set_fieldTypes {σ} (ft : option (gmap string (option FieldTypeMap)))
  : Async σ () := λ w,
  (Fulfilled (),
   {| this := {| config := config (this w); fieldTypes := ft |};
      engine := engine w; calls := calls w; logs := logs w |}).

(** Issue one transport request: the engine answers and moves, the request
    is recorded with how it settled. *)
Definition request {σ A} (call : Call) (send : σ → Reply A * σ)
  : Async σ (Reply A) := λ w,
  let '(reply, s) := send (engine w) in
  (Fulfilled reply, add_call w call (outcome_of reply) s).

(** [await p] on a request without a rejection handler. *)
Definition await {σ A} (p : Async σ (Reply A)) : Async σ A :=
  reply ← p;
  match reply with
  | Replied a => mret a
  | Failed err => throw (Upstream err)
  end.

(** [Promise.all]: every promise runs to its end, in the order the
    requests were issued; the result is the array of values, or the first
    rejection. *)
Fixpoint Promise_all {σ A} (promiseList : list (Async σ A))
  : Async σ (list A) :=
  match promiseList with
  | [] => mret []
  | p :: rest => λ w,
      let '(r, w1) := p w in
      let '(rs, w2) := Promise_all rest w1 in
      (match r, rs with
       | Rejected e, _ => Rejected e
       | Pending, _ => Pending
       | Fulfilled a, Fulfilled l => Fulfilled (a :: l)
       | Fulfilled _, Rejected e => Rejected e
       | Fulfilled _, Pending => Pending
       end, w2)
  end.

(** ** Synchronous methods *)

(** [query], lines 53-58: the keys of [queryBody] whose value is neither
    [undefined] nor [null], copied into a fresh object. *)
Definition copy_defined (queryBody validatedQueryBody : gmap string JsVal)
  (key : string) : gmap string JsVal :=
  if nullish (obj_get queryBody key) then validatedQueryBody
  else <[key := obj_get queryBody key]> validatedQueryBody.

Definition validateQueryBody (queryBody : gmap string JsVal)
  : gmap string JsVal :=
  foldl (copy_defined queryBody) ∅ (Object_keys queryBody).

(** [getESFieldTypeMappingByIndex]: [this.fieldTypes[esIndex]]. *)
Definition getESFieldTypeMappingByIndex (this : ES) (esIndex : string)
  : Completion (option FieldTypeMap) :=
  match fieldTypes this with
  | None => Throw TypeError
  | Some ft => Return (mjoin (ft !! esIndex))
  end.

(** [Object.keys(o)] where [o] may be [undefined]. *)
Definition Object_keys_of (o : option FieldTypeMap) : Completion (list string) :=
  match o with
  | None => Throw TypeError
  | Some m => Return m.*1
  end.

(** [getESFields], lines 174-181: the object [res], one record per
    configured index. *)
Fixpoint getESFields_res (this : ES) (cfgs : list IndexConfig)
  (res : gmap string ESFields) : Completion (gmap string ESFields) :=
  match cfgs with
  | [] => Return res
  | cfg :: rest =>
      o ← getESFieldTypeMappingByIndex this (index cfg);
      keys ← Object_keys_of o;
      getESFields_res this rest
        (<[index cfg := {| fields_index := index cfg;
                           fields_type := type cfg;
                           fields := keys |}]> res)
  end.

Definition getESFields (this : ES) (esIndex : option string)
  : Completion FieldsResult :=
  res ← getESFields_res this (indices (config this)) ∅;
  match esIndex with
  | None => Return (AllIndices res)
  | Some i => Return (OneIndex (res !! i))
  end.

(** [getESIndexByType] *)
Definition getESIndexByType (this : ES) (esType : string) : Completion string :=
  match List.find (λ i, bool_decide (type i = esType)) (indices (config this)) with
  | Some i => Return (index i)
  | None =>
      Throw (CodedError 400 ("Invalid es type: " +:+ dquote +:+ esType +:+ dquote))
  end.

(** [_getESFieldsTypes], lines 32-39: the handler of a fulfilled mapping
    request.  Reading a property of [undefined] throws. *)
Fixpoint reduce_fieldTypes (mappingObj : list (string * FieldMapping))
  (keys : list string) (acc : FieldTypeMap) : Completion FieldTypeMap :=
  match keys with
  | [] => Return acc
  | field :: rest =>
      match lookup_key mappingObj field with
      | None => Throw TypeError
      | Some fm => reduce_fieldTypes mappingObj rest (assign acc field (field_type fm))
      end
  end.

Definition fieldTypesOfMapping (resp : MappingResponse) (esType : string)
  : Completion FieldTypeMap :=
  match head (mapping_body resp).*1 with
  | None => Throw TypeError
  | Some esIndexAlias =>
      match lookup_key (mapping_body resp) esIndexAlias with
      | None => Throw TypeError
      | Some entry =>
          match lookup_key (mappings entry) esType with
          | None => Throw TypeError
          | Some tm =>
              match properties tm with
              | None => Throw TypeError
              | Some mappingObj =>
                  reduce_fieldTypes mappingObj mappingObj.*1 []
              end
          end
      end
  end.

(** [scrollQuery], lines 82-94: the two request checks. *)
Definition invalid_fields_message (fieldsNotBelong : list string) : string :=
  "Invalid fields: " +:+ dquote
    +:+ join (dquote +:+ ", " +:+ dquote) fieldsNotBelong +:+ dquote.

Definition scrollQuery_checks (this : ES) (esIndex esType : option string)
  (fields : option (list string)) : Completion () :=
  if negb (truthy_name esIndex) || negb (truthy_name esType) then
    Throw (CodedError 400 "Invalid es index or es type name")
  else
    r ← getESFields this esIndex;
    cached ← match r with
             | OneIndex (Some {| fields := cached |}) => Return cached
             | OneIndex None => Throw TypeError
             | AllIndices _ => Throw TypeError
             end;
    let fieldsNotBelong := difference fields cached in
    if (0 <? length fieldsNotBelong)%nat then
      Throw (CodedError 400 (invalid_fields_message fieldsNotBelong))
    else Return ().

(** ** Asynchronous methods *)

(** The variables of the scroll loop, lines 98-101. *)
Record ScrollState := {
  currentBatch : option SearchBody;
  scrollID : option string;
  totalData : list JsVal;
  batchSize : nat
}.

(** [!currentBatch || batchSize > 0] *)
Definition scroll_continues (st : ScrollState) : bool :=
  negb (bool_decide (is_Some (currentBatch st))) || (0 <? batchSize st)%nat.

(** The loop variables before the first turn. *)
Definition scroll_start : ScrollState :=
  {| currentBatch := None; scrollID := None; totalData := []; batchSize := 0 |}.

(** Lines 129-133: take the cursor and the size of the batch and append
    its documents. *)
Definition merge_batch (st : ScrollState) (batch : SearchBody) : ScrollState :=
  {| currentBatch := Some batch;
     scrollID := _scroll_id batch;
     batchSize := length (hits batch);
     totalData := totalData st ++ map _source (hits batch) |}.

Section Methods.
Context {σ : Type}.
(** [this.client], and the page size imported from [./const]. *)
Variable client : Client σ.
Variable SCROLL_PAGE_SIZE : N.

Definition _getESFieldsTypes (esIndex esType : string)
  : Async σ (option FieldTypeMap) :=
  let p := {| mapping_index := esIndex; mapping_type := esType |} in
  reply ← request (CGetMapping p) (client_getMapping client p);
  match reply with
  | Replied resp =>
      fieldTypes ← lift (fieldTypesOfMapping resp esType);
      mret (Some fieldTypes)
  | Failed err =>
      log (ConsoleTrace (message err));;
      mret None
  end.

Definition query_params (esIndex esType : option string)
  (queryBody : gmap string JsVal) : SearchParams :=
  {| search_index := esIndex; search_type := esType;
     search_body := validateQueryBody queryBody;
     search_scroll := None; search_size := None;
     search_source := None; search_sort := JUndefined |}.

(** [query]: the response body, or [undefined] ([None]) when the request
    failed. *)
Definition query (esIndex esType : option string)
  (queryBody : gmap string JsVal) : Async σ (option SearchBody) :=
  let p := query_params esIndex esType queryBody in
  log (LogInfo "[ES.query] query body: ");;
  reply ← request (CSearch p) (client_search client p);
  match reply with
  | Replied resp => mret (Some (body resp))
  | Failed err =>
      log (LogError "[ES.query] error when query");;
      log (ConsoleTrace (message err));;
      mret None
  end.

Definition scroll_params (esIndex esType : option string) (filter : JsVal)
  (fields : option (list string)) (sort : JsVal) : SearchParams :=
  {| search_index := esIndex; search_type := esType;
     search_body := if truthy filter then {[ "query" := filter ]} else ∅;
     search_scroll := Some "1m"; search_size := Some SCROLL_PAGE_SIZE;
     search_source := fields; search_sort := sort |}.

(** Lines 104-125: fetch the next batch. *)
Definition scrollQuery_fetch (first : SearchParams) (st : ScrollState)
  : Async σ SearchBody :=
  match scrollID st with
  | None =>
      reply ← request (CSearch first) (client_search client first);
      res ← match reply with
            | Replied resp => mret (Some resp)
            | Failed err =>
                log (LogError "[ES.query] error when query");;
                log (ConsoleTrace (message err));;
                mret None
            end;
      match res with
      | None => throw TypeError
      | Some resp =>
          log (LogDebug "[ES scrollQuery] created scroll");;
          mret (body resp)
      end
  | Some id =>
      let p := {| scroll_id := id; scroll_ttl := "1m" |} in
      res ← await (request (CScroll p) (client_scroll client p));
      mret (body res)
  end.

(** Lines 104-133: one turn of the loop. *)
Definition scrollQuery_turn (first : SearchParams) (st : ScrollState)
  : Async σ ScrollState :=
  batch ← scrollQuery_fetch first st;
  log (LogDebug "[ES scrollQuery] get batch size = ");;
  mret (merge_batch st batch).

(** Lines 103-134.  [fuel] bounds the number of turns the model runs;
    the promise is [Pending] when it is used up inside the loop. *)
Fixpoint scrollQuery_loop (fuel : nat) (first : SearchParams)
  (st : ScrollState) : Async σ ScrollState :=
  if scroll_continues st then
    match fuel with
    | O => λ w, (Pending, w)
    | S fuel' =>
        st' ← scrollQuery_turn first st;
        scrollQuery_loop fuel' first st'
    end
  else mret st.

Definition scrollQuery (fuel : nat) (esIndex esType : option string)
  (filter : JsVal) (fields : option (list string)) (sort : JsVal)
  : Async σ (list JsVal) :=
  this ← get_this;
  lift (scrollQuery_checks this esIndex esType fields);;
  log (LogDebug "[ES.scrollQuery] scroll query body: ");;
  st ← scrollQuery_loop fuel (scroll_params esIndex esType filter fields sort)
         scroll_start;
  log (LogDebug "[ES scrollQuery] end scrolling");;
  (let p := {| clear_scroll_id := scrollID st |} in
   await (request (CClearScroll p) (client_clearScroll client p)));;
  log (LogDebug "[ES scrollQuery] scroll cleaned");;
  mret (totalData st).

(** [initialize], lines 145-146: up to the first request. *)
Definition initialize_begin : Async σ () :=
  set_fieldTypes (Some ∅);;
  log (LogInfo "[ES.initialize] getting mapping from elasticsearch...").

(** Lines 148-149: the promise made for one configured index. *)
Definition fetch_fieldTypes (cfg : IndexConfig)
  : Async σ (string * option FieldTypeMap) :=
  res ← _getESFieldsTypes (index cfg) (type cfg);
  mret (index cfg, res).

(** Lines 147-150: one mapping request per configured index, awaited
    together.  The method is suspended here. *)
Definition initialize_fetch
  : Async σ (list (string * option FieldTypeMap)) :=
  this ← get_this;
  Promise_all (map fetch_fieldTypes (indices (config this))).

(** [this.fieldTypes[res.index] = res.fieldTypes] *)
Definition store_fieldTypes (res : string * option FieldTypeMap)
  : Async σ () :=
  this ← get_this;
  match fieldTypes this with
  | None => throw TypeError
  | Some ft => set_fieldTypes (Some (<[res.1 := res.2]> ft))
  end.

Fixpoint forEach {A} (f : A → Async σ ()) (arr : list A) : Async σ () :=
  match arr with
  | [] => mret ()
  | x :: rest => f x;; forEach f rest
  end.

(** Lines 151-156: after the await, without further suspension. *)
Definition initialize_finish (resultList : list (string * option FieldTypeMap))
  : Async σ (option (gmap string (option FieldTypeMap))) :=
  log (LogInfo "[ES.initialize] got mapping from elasticsearch");;
  forEach store_fieldTypes resultList;;
  log (LogDebug "[ES.initialize]");;
  this ← get_this;
  mret (fieldTypes this).

Definition initialize
  : Async σ (option (gmap string (option FieldTypeMap))) :=
  initialize_begin;;
  resultList ← initialize_fetch;
  initialize_finish resultList.

(** The receiver as other code can see it while [initialize] runs: when
    the method is suspended with its requests in flight, when the
    replies are in and it is about to resume, and when it has
    settled. *)
Definition initialize_observed (w : World σ) : list ES :=
  let w1 := (initialize_begin w).2 in
  let w2 := (initialize_fetch w1).2 in
  [this w1; this w2; this (initialize w).2].

End Methods.

(** ** A scripted engine *)

(** A fixture: the engine answers the requests it receives with the
    replies of a script, in order; a request the script does not expect
    fails. *)
Inductive Scripted :=
| SPage (r : Reply SearchResponse)
| SCleared (r : Reply ())
| SMapping (r : Reply MappingResponse).

Definition unexpected : TransportError := {| message := "unexpected request" |}.

Definition scripted : Client (list Scripted) :=
  {| client_search := λ _ s,
       match s with SPage r :: s' => (r, s') | _ => (Failed unexpected, s) end;
     client_scroll := λ _ s,
       match s with SPage r :: s' => (r, s') | _ => (Failed unexpected, s) end;
     client_clearScroll := λ _ s,
       match s with SCleared r :: s' => (r, s') | _ => (Failed unexpected, s) end;
     client_getMapping := λ _ s,
       match s with SMapping r :: s' => (r, s') | _ => (Failed unexpected, s) end
  |}.

Definition page (id : string) (docs : list JsVal) : Scripted :=
  SPage (Replied {| body := {| _scroll_id := Some id;
                               hits := map Build_Hit docs |} |}).

Definition mapping_of (alias esType : string) (props : list (string * string))
  : Scripted :=
  SMapping (Replied {| mapping_body :=
    [(alias, {| mappings :=
       [(esType, {| properties :=
           Some (map (λ p, (p.1, {| field_type := Some p.2 |})) props) |})] |})] |}).

Definition down : TransportError := {| message := "connect ECONNREFUSED" |}.

Definition world_of (es : ES) (script : list Scripted) : World (list Scripted) :=
  {| this := es; engine := script; calls := []; logs := [] |}.

(** Two configured indices and a receiver whose cache holds both. *)
Definition cfgA : IndexConfig := {| index := "subject"; type := "case" |}.
Definition cfgB : IndexConfig := {| index := "file"; type := "file" |}.

Definition config_AB : ESConfig :=
  {| host := "http://esproxy:9200"; indices := [cfgA; cfgB] |}.

Definition ftA : FieldTypeMap := [("gender", Some "keyword"); ("age", Some "integer")].
Definition ftB : FieldTypeMap := [("file_id", Some "keyword")].

Definition es_fresh : ES := {| config := config_AB; fieldTypes := None |}.

Definition es_ready : ES :=
  {| config := config_AB;
     fieldTypes := Some (<["subject" := Some ftA]> (<["file" := Some ftB]> ∅)) |}.

(** The cursor releases asked of the engine, oldest first. *)
Definition released {σ} (w : World σ) : list ClearScrollParams :=
  omap (λ ev, match ev.1 with CClearScroll p => Some p | _ => None end)
       (calls w).

(** Reading the cache during a run of [initialize] gives the map that was
    installed before the run or the map the run installs. *)
Definition installs_atomically {σ} (client : Client σ) (w : World σ) : Prop :=
  ∀ es, es ∈ initialize_observed client w →
    fieldTypes es = fieldTypes (this w) ∨
    fieldTypes es = fieldTypes (this (initialize client w).2).

(** Query bodies and worlds used as examples. *)
Definition body_plain : gmap string JsVal :=
  <["size" := JNum 10]> (<["from" := JNum 0]> ∅).

Definition range_with_nulls : gmap string JsVal :=
  <["gte" := JNull]> (<["lte" := JUndefined]> ∅).

Definition body_nested : gmap string JsVal :=
  <["query" := JObj range_with_nulls]> (<["sort" := JNull]> ∅).

Definition doc (n : Z) : JsVal := JObj {[ "id" := JNum n ]}.

Definition world_pages : World (list Scripted) :=
  world_of es_ready
    [page "c1" [doc 1; doc 2]; page "c2" [doc 3; doc 4]; page "c3" [];
     SCleared (Replied ())].

Definition world_first_down : World (list Scripted) :=
  world_of es_ready [SPage (Failed down)].

Definition world_second_down : World (list Scripted) :=
  world_of es_ready [page "c1" [doc 1; doc 2]; SPage (Failed down)].

Definition world_search_down : World (list Scripted) :=
  world_of es_ready [SPage (Failed down)].

Definition world_B_down : World (list Scripted) :=
  world_of es_fresh
    [mapping_of "subject_1" "case" [("gender", "keyword"); ("age", "integer")];
     SMapping (Failed down)].

Definition world_refresh : World (list Scripted) :=
  world_of es_ready
    [mapping_of "subject_1" "case" [("gender", "keyword"); ("age", "integer")];
     mapping_of "file_1" "file" [("file_id", "keyword")]].

Definition es_B_undefined : ES :=
  {| config := config_AB;
     fieldTypes := Some (<["file" := None]> (<["subject" := Some ftA]> ∅)) |}.

(** Reading the trace. *)
Definition succeeded (ev : Call * Outcome) : Prop := ev.2 = Succeeded.

Definition not_release (ev : Call * Outcome) : Prop := is_clearScroll ev = false.

(** How a failed page fetch surfaces: a failed first page leaves [res]
    undefined and reading [res.body] throws; a failed continuation rejects
    with the transport error. *)
Definition page_failure (c : Call) (err : TransportError) (e : JsError) : Prop :=
  ((∃ p, c = CSearch p) ∧ e = TypeError) ∨
  ((∃ p, c = CScroll p) ∧ e = Upstream err).

(** What a run that took the world from [w] to [w'] asked of the engine. *)
Definition issued {σ} (w w' : World σ) : list (Call * Outcome) :=
  drop (length (calls w)) (calls w').

(** Lines 152-154 on the cache: each result stored under its index, a
    failed fetch as [undefined]. *)
Definition install (ft : gmap string (option FieldTypeMap))
  (resultList : list (string * option FieldTypeMap))
  : gmap string (option FieldTypeMap) :=
  foldl (λ ft res, <[res.1 := res.2]> ft) ft resultList.

(** The receiver once [initialize] has cleared the cache. *)
Definition cleared (es : ES) : ES :=
  {| config := config es; fieldTypes := Some ∅ |}.

(** The export used as example: the field [age] of the cases, 100 to a
    page. *)
Definition age_fields : option (list string) := Some ["age"].

Definition first_request : SearchParams :=
  scroll_params 100 (Some "subject") (Some "case") JUndefined age_fields
    JUndefined.

Definition export (fuel : nat) (w : World (list Scripted))
  : Promise (list JsVal) * World (list Scripted) :=
  scrollQuery scripted 100 fuel (Some "subject") (Some "case") JUndefined
    age_fields JUndefined w.

Definition c1_scroll : Call := CScroll {| scroll_id := "c1"; scroll_ttl := "1m" |}.

Definition subject_mapping : MappingResponse :=
  {| mapping_body :=
       [("subject_1",
         {| mappings :=
              [("case",
                {| properties :=
                     Some [("gender", {| field_type := Some "keyword" |});
                           ("age", {| field_type := Some "integer" |})] |})] |})] |}.

(** ** Further vocabulary *)

(** The entry [_getESFieldsTypes] makes for one property of a mapping. *)
Definition field_entry (p : string * FieldMapping) : string * option string :=
  (p.1, field_type p.2).

(** The request the loop makes for its next page: the search while it has
    no cursor, a continuation with the cursor afterwards. *)
Definition next_page {σ} (client : Client σ) (first : SearchParams)
  (id : option string) (s : σ) : Reply SearchResponse * σ :=
  match id with
  | None => client_search client first s
  | Some c => client_scroll client {| scroll_id := c; scroll_ttl := "1m" |} s
  end.

(** The engine answers the page requests of an export, made one after the
    other from state [s] and cursor [id], with the bodies [pages], and is
    left in state [s']. *)
Fixpoint serves {σ} (client : Client σ) (first : SearchParams)
  (id : option string) (s : σ) (pages : list SearchBody) (s' : σ) : Prop :=
  match pages with
  | [] => s' = s
  | b :: rest =>
      ∃ s1, next_page client first id s = (Replied {| body := b |}, s1)
            ∧ serves client first (_scroll_id b) s1 rest s'
  end.

(** The documents of a sequence of pages, page after page. *)
Definition documents (pages : list SearchBody) : list JsVal :=
  mjoin ((λ b, map _source (hits b)) <$> pages).

(** Every configured index has a field-type map in the cache. *)
Definition populated (es : ES) : Prop :=
  ∀ cfg, cfg ∈ indices (config es) →
    ∃ ft, getESFieldTypeMappingByIndex es (index cfg) = Return (Some ft).

(** Every mapping request is answered, with a response from which the
    field types of the requested document type can be read. *)
Definition answers_mappings {σ} (client : Client σ) : Prop :=
  ∀ p s, ∃ resp s' ft,
    client_getMapping client p s = (Replied resp, s')
    ∧ fieldTypesOfMapping resp (mapping_type p) = Return ft.

(** The mapping request [initialize] makes for a configured index. *)
Definition mapping_request (cfg : IndexConfig) : Call :=
  CGetMapping {| mapping_index := index cfg; mapping_type := type cfg |}.

(** An engine that answers every request: a mapping with the one field
    [id] for any index and type, an empty page for any search. *)
Definition steady_mapping (p : GetMappingParams) : MappingResponse :=
  {| mapping_body :=
       [(mapping_index p,
         {| mappings :=
              [(mapping_type p,
                {| properties :=
                     Some [("id", {| field_type := Some "keyword" |})] |})] |})] |}.

Definition steady : Client () :=
  {| client_search := λ _ s,
       (Replied {| body := {| _scroll_id := Some "c0"; hits := [] |} |}, s);
     client_scroll := λ _ s,
       (Replied {| body := {| _scroll_id := Some "c0"; hits := [] |} |}, s);
     client_clearScroll := λ _ s, (Replied (), s);
     client_getMapping := λ p s, (Replied (steady_mapping p), s) |}.

(** What [_getESFieldsTypes] resolves to for a reply: the field types read
    from an answered request, [undefined] for a failed one. *)
Definition fetched (reply : Reply MappingResponse) (esType : string)
  (res : option FieldTypeMap) : Prop :=
  match reply with
  | Replied resp => ∃ ft, fieldTypesOfMapping resp esType = Return ft ∧ res = Some ft
  | Failed _ => res = None
  end.

(** The engine settles the mapping requests for [cfgs], made one after the
    other from state [s], so that they resolve to [results], and is left
    in state [s']. *)
Fixpoint mappings_served {σ} (client : Client σ) (cfgs : list IndexConfig)
  (s : σ) (results : list (option FieldTypeMap)) (s' : σ) : Prop :=
  match cfgs, results with
  | [], [] => s' = s
  | cfg :: cfgs, res :: results =>
      ∃ reply s1,
        client_getMapping client
          {| mapping_index := index cfg; mapping_type := type cfg |} s
          = (reply, s1)
        ∧ fetched reply (type cfg) res
        ∧ mappings_served client cfgs s1 results s'
  | _, _ => False
  end.

(** Further worlds used as examples. *)
Definition world_unreadable : World (list Scripted) :=
  world_of es_fresh
    [SMapping (Replied {| mapping_body := [] |});
     mapping_of "file_1" "file" [("file_id", "keyword")]].

Definition world_release_down : World (list Scripted) :=
  world_of es_ready
    [page "c1" [doc 1; doc 2]; page "c2" []; SCleared (Failed down)].

Definition cfgA2 : IndexConfig := {| index := "subject"; type := "visit" |}.

Definition world_same_index : World (list Scripted) :=
  world_of {| config := {| host := "http://esproxy:9200";
                           indices := [cfgA; cfgA2] |};
              fieldTypes := None |}
    [mapping_of "subject_1" "case" [("gender", "keyword"); ("age", "integer")];
     SMapping (Failed down)].

Definition steady_world : World () :=
  {| this := es_fresh; engine := (); calls := []; logs := [] |}.

Definition page_body (id : string) (docs : list JsVal) : SearchBody :=
  {| _scroll_id := Some id; hits := map Build_Hit docs |}.

(** * Properties *)

(** Unfolding of the monad of [async] methods. *)
Ltac run :=
  cbv beta iota zeta delta
    [mbind async_bind mret async_ret completion_bind completion_ret
     throw lift log request await get_this set_fieldTypes outcome_of fst snd].

(** ** [query]: the body sent to the engine *)

Section ValidateQueryBody.
Implicit Types (queryBody acc : gmap string JsVal) (key : string).

Lemma copy_defined_foldl queryBody keys acc key :
  foldl (copy_defined queryBody) acc keys !! key =
    if decide (key ∈ keys ∧ nullish (obj_get queryBody key) = false)
    then Some (obj_get queryBody key) else acc !! key.
Proof.
  revert acc. induction keys as [|k keys IH]; intros acc; cbn [foldl].
  - rewrite decide_False; [done|]. intros [H _]. by apply elem_of_nil in H.
  - rewrite IH. unfold copy_defined.
    destruct (decide (key ∈ keys ∧ nullish (obj_get queryBody key) = false))
      as [[Hin Hn]|Hno].
    + rewrite decide_True; [done|]. split; [by right|done].
    + destruct (decide (k = key)) as [->|Hne].
      * destruct (nullish (obj_get queryBody key)) eqn:Hn.
        -- rewrite decide_False; [done|]. by intros [_ ?].
        -- rewrite lookup_insert_eq, decide_True; [done|]. split; [by left|done].
      * rewrite decide_False.
        -- destruct (nullish (obj_get queryBody k)); [done|].
           by rewrite lookup_insert_ne.
        -- intros [Hin Hn]. apply Hno. split; [|done].
           apply elem_of_cons in Hin as [->|?]; done.
Qed.

Lemma Object_keys_spec queryBody key :
  key ∈ Object_keys queryBody ↔ is_Some (queryBody !! key).
Proof.
  unfold Object_keys. rewrite list_elem_of_fmap. split.
  - intros ([k v] & -> & H). apply elem_of_map_to_list in H. by exists v.
  - intros [v Hv]. exists (key, v). split; [done|].
    by apply elem_of_map_to_list.
Qed.

Lemma validateQueryBody_lookup queryBody key :
  validateQueryBody queryBody !! key =
    match queryBody !! key with
    | Some v => if nullish v then None else Some v
    | None => None
    end.
Proof.
  unfold validateQueryBody.
  rewrite copy_defined_foldl, lookup_empty. unfold obj_get.
  destruct (queryBody !! key) as [v|] eqn:Hv; simpl.
  - destruct (nullish v) eqn:Hn.
    + rewrite decide_False; [done|]. intros [_ ?]; congruence.
    + rewrite decide_True; [done|]. split; [|done].
      apply Object_keys_spec. by exists v.
  - rewrite decide_False; [done|]. intros [H _].
    apply Object_keys_spec in H as [v Hv']. congruence.
Qed.

Lemma validateQueryBody_filter queryBody :
  validateQueryBody queryBody = filter (λ kv, nullish kv.2 = false) queryBody.
Proof.
  apply map_eq. intros key. rewrite validateQueryBody_lookup.
  destruct (queryBody !! key) as [v|] eqn:Hv.
  - destruct (nullish v) eqn:Hn.
    + symmetry. apply map_lookup_filter_None. right. intros v' Hv' Hp.
      cbn in Hp. congruence.
    + symmetry. by apply map_lookup_filter_Some.
  - symmetry. apply map_lookup_filter_None. by left.
Qed.

Lemma validateQueryBody_id queryBody :
  (∀ key v, queryBody !! key = Some v → nullish v = false) →
  validateQueryBody queryBody = queryBody.
Proof.
  intros Hall. apply map_eq. intros key. rewrite validateQueryBody_lookup.
  destruct (queryBody !! key) as [v|] eqn:Hv; [|done].
  by rewrite (Hall key v Hv).
Qed.

Lemma validateQueryBody_defined queryBody key v :
  validateQueryBody queryBody !! key = Some v → nullish v = false.
Proof.
  rewrite validateQueryBody_lookup.
  destruct (queryBody !! key) as [v'|]; [|done].
  destruct (nullish v') eqn:Hn; [done|]. congruence.
Qed.
End ValidateQueryBody.

Section Query.
Context {σ : Type} (client : Client σ).
Implicit Types (w : World σ) (queryBody : gmap string JsVal).

Lemma query_calls esIndex esType queryBody w :
  ∃ o, calls (query client esIndex esType queryBody w).2 =
         calls w ++ [(CSearch (query_params esIndex esType queryBody), o)].
Proof.
  unfold query. run. cbn [add_log engine].
  destruct (client_search client _ (engine w)) as [[resp|err] s]; run;
    cbn [add_log add_call calls]; eauto.
Qed.

(** C6: the body [query] sends holds exactly the keys of the query body
    whose value is neither [null] nor [undefined], each with its value;
    a body without such keys is sent as it is, and stripping twice is
    stripping once. *)
Theorem query_sends_stripped_body esIndex esType queryBody w :
  let sent := validateQueryBody queryBody in
  (∃ o, calls (query client esIndex esType queryBody w).2 =
          calls w ++
          [(CSearch {| search_index := esIndex; search_type := esType;
                       search_body := sent;
                       search_scroll := None; search_size := None;
                       search_source := None; search_sort := JUndefined |}, o)])
  ∧ (∀ key, sent !! key =
              match queryBody !! key with
              | Some v => if nullish v then None else Some v
              | None => None
              end)
  ∧ ((∀ key v, queryBody !! key = Some v → nullish v = false) →
     sent = queryBody)
  ∧ validateQueryBody sent = sent.
Proof.
  intros sent. split; [apply query_calls|].
  split; [apply validateQueryBody_lookup|].
  split; [apply validateQueryBody_id|].
  apply validateQueryBody_id, validateQueryBody_defined.
Qed.

(** C10: the stripping looks at the top-level keys only: a top-level
    value that is an object is sent as it is, whatever its own fields
    hold. *)
Theorem query_stripping_is_shallow esIndex esType queryBody key inner w :
  queryBody !! key = Some (JObj inner) →
  ∃ p o, calls (query client esIndex esType queryBody w).2 =
           calls w ++ [(CSearch p, o)]
         ∧ search_body p !! key = Some (JObj inner).
Proof.
  intros Hkey. destruct (query_calls esIndex esType queryBody w) as [o Ho].
  exists (query_params esIndex esType queryBody), o. split; [done|].
  cbn [query_params search_body]. by rewrite validateQueryBody_lookup, Hkey.
Qed.

(** C8: when the search request fails, [query] logs the failure and
    fulfils with [undefined]; nothing is thrown to the caller. *)
Theorem query_swallows_transport_failure esIndex esType queryBody w err s :
  client_search client (query_params esIndex esType queryBody) (engine w)
    = (Failed err, s) →
  query client esIndex esType queryBody w =
    (Fulfilled None,
     {| this := this w; engine := s;
        calls := calls w ++
          [(CSearch (query_params esIndex esType queryBody), FailedWith err)];
        logs := logs w ++
          [LogInfo "[ES.query] query body: ";
           LogError "[ES.query] error when query";
           ConsoleTrace (message err)] |}).
Proof.
  intros Hfail. unfold query. run. cbn [add_log engine].
  rewrite Hfail. run. unfold add_log, add_call. cbn [engine calls logs this].
  by rewrite <- !app_assoc.
Qed.
End Query.

(** ** Strings *)

Lemma append_cons c (s t : string) : String c s +:+ t = String c (s +:+ t).
Proof. reflexivity. Qed.

Lemma append_nil_l (s : string) : EmptyString +:+ s = s.
Proof. reflexivity. Qed.

Lemma append_nil_r (s : string) : s +:+ EmptyString = s.
Proof. induction s as [|c s IH]; [done|]. by rewrite append_cons, IH. Qed.

Lemma append_assoc (s t u : string) : (s +:+ t) +:+ u = s +:+ (t +:+ u).
Proof.
  induction s as [|c s IH]; [done|]. by rewrite !append_cons, IH.
Qed.

Lemma join_cons sep (x y : string) (l : list string) :
  join sep (x :: y :: l) = x +:+ sep +:+ join sep (y :: l).
Proof. reflexivity. Qed.

(** Every element of a joined array stands in the result between the end
    of the separator before it and the start of the one after it. *)
Lemma join_quoted (x : string) (l : list string) :
  x ∈ l →
  ∃ pre post,
    dquote +:+ join (dquote +:+ ", " +:+ dquote) l +:+ dquote
    = pre +:+ dquote +:+ x +:+ dquote +:+ post.
Proof.
  induction l as [|a l IH]; intros Hin; [by apply elem_of_nil in Hin|].
  destruct l as [|b l].
  - apply list_elem_of_singleton in Hin as ->.
    exists EmptyString, EmptyString. cbn [join String.concat].
    by rewrite append_nil_l, append_nil_r.
  - apply elem_of_cons in Hin as [->|Hin].
    + exists EmptyString,
        (", " +:+ dquote +:+ join (dquote +:+ ", " +:+ dquote) (b :: l) +:+ dquote).
      rewrite join_cons, append_nil_l. by rewrite !append_assoc.
    + destruct (IH Hin) as (pre & post & Heq).
      exists (dquote +:+ a +:+ dquote +:+ ", " +:+ pre), post.
      rewrite join_cons, !append_assoc. by rewrite Heq.
Qed.

(** ** The synchronous lookups *)

Section Lookups.
Implicit Types (this : ES) (cfg : IndexConfig).

Lemma find_first {A} (f : A → bool) (l : list A) (x : A) :
  List.find f l = Some x →
  ∃ pre post, l = pre ++ x :: post ∧ f x = true ∧ ∀ y, y ∈ pre → f y = false.
Proof.
  induction l as [|a l IH]; cbn; [done|].
  destruct (f a) eqn:Hfa.
  - intros [= ->]. exists [], l. split_and!; [done..|].
    intros y Hy. by apply elem_of_nil in Hy.
  - intros Hfind. destruct (IH Hfind) as (pre & post & -> & Hx & Hpre).
    exists (a :: pre), post. split_and!; [done..|].
    intros y [->|Hy]%elem_of_cons; auto.
Qed.

(** C7: [getESIndexByType] throws the 400 error when no configured pair
    has the type, and otherwise returns the index of the first
    configured pair that has it; it is a function of the configuration
    alone. *)
Theorem getESIndexByType_spec this esType :
  ((∀ cfg, cfg ∈ indices (config this) → type cfg ≠ esType) →
     getESIndexByType this esType =
       Throw (CodedError 400
                ("Invalid es type: " +:+ dquote +:+ esType +:+ dquote)))
  ∧ (∀ cfg, cfg ∈ indices (config this) → type cfg = esType →
       ∃ pre found post,
         indices (config this) = pre ++ found :: post
         ∧ (∀ c, c ∈ pre → type c ≠ esType)
         ∧ type found = esType
         ∧ getESIndexByType this esType = Return (index found)).
Proof.
  unfold getESIndexByType. split.
  - intros Hnone.
    destruct (List.find _ _) as [found|] eqn:Hfind; [|done].
    apply find_some in Hfind as [Hin Ht].
    apply bool_decide_eq_true in Ht.
    apply list_elem_of_In in Hin. by destruct (Hnone found Hin).
  - intros cfg Hin Ht.
    destruct (List.find _ _) as [found|] eqn:Hfind.
    + apply find_first in Hfind as (pre & post & Heq & Hf & Hpre).
      exists pre, found, post. apply bool_decide_eq_true in Hf.
      split_and!; [done| |done..].
      intros c Hc. specialize (Hpre c Hc).
      by apply bool_decide_eq_false in Hpre.
    + apply list_elem_of_In in Hin.
      pose proof (find_none _ _ Hfind cfg Hin) as Hno.
      by apply bool_decide_eq_false in Hno.
Qed.

Lemma getESFields_res_poisoned this cfgs cfg res :
  cfg ∈ cfgs →
  (∀ ft, getESFieldTypeMappingByIndex this (index cfg) ≠ Return (Some ft)) →
  getESFields_res this cfgs res = Throw TypeError.
Proof.
  intros Hin Hmiss. revert res.
  induction cfgs as [|c cfgs IH]; intros res; [by apply elem_of_nil in Hin|].
  cbn [getESFields_res]. unfold mbind, completion_bind.
  destruct (getESFieldTypeMappingByIndex this (index c)) as [[ft|]|e] eqn:Hc.
  - cbn [Object_keys_of]. apply elem_of_cons in Hin as [->|Hin].
    + by destruct (Hmiss ft).
    + by apply IH.
  - done.
  - unfold getESFieldTypeMappingByIndex in Hc.
    destruct (fieldTypes this); congruence.
Qed.

Lemma getESFields_poisoned this cfg esIndex :
  cfg ∈ indices (config this) →
  (∀ ft, getESFieldTypeMappingByIndex this (index cfg) ≠ Return (Some ft)) →
  getESFields this esIndex = Throw TypeError.
Proof.
  intros Hin Hmiss. unfold getESFields.
  by rewrite (getESFields_res_poisoned _ _ _ _ Hin Hmiss).
Qed.

(** With an index given, [getESFields] returns one record or
    [undefined], never the whole object. *)
Lemma getESFields_one this i r :
  getESFields this (Some i) = Return r → ∃ o, r = OneIndex o.
Proof.
  unfold getESFields, mbind, completion_bind.
  destruct (getESFields_res _ _ _); [|done]. intros [= <-]. eauto.
Qed.
End Lookups.

(** ** [scrollQuery] *)

Section Scroll.
Context {σ : Type} (client : Client σ) (SCROLL_PAGE_SIZE : N).
Implicit Types (w : World σ) (st : ScrollState) (first : SearchParams).

Abbreviation scrollQuery := (scrollQuery client SCROLL_PAGE_SIZE).
Abbreviation scroll_params := (scroll_params SCROLL_PAGE_SIZE).
Abbreviation loop := (scrollQuery_loop client).
Abbreviation turn := (scrollQuery_turn client).

(** *** The request checks *)

Lemma scrollQuery_checks_throw fuel esIndex esType flt requested sort w e :
  scrollQuery_checks (this w) esIndex esType requested = Throw e →
  scrollQuery fuel esIndex esType flt requested sort w = (Rejected e, w).
Proof. intros H. unfold scrollQuery. run. by rewrite H. Qed.

Lemma scrollQuery_checks_return fuel esIndex esType flt requested sort w :
  scrollQuery_checks (this w) esIndex esType requested = Return () →
  scrollQuery fuel esIndex esType flt requested sort w =
    (st ← loop fuel (scroll_params esIndex esType flt requested sort)
            scroll_start;
     log (LogDebug "[ES scrollQuery] end scrolling");;
     (let p := {| clear_scroll_id := scrollID st |} in
      await (request (CClearScroll p) (client_clearScroll client p)));;
     log (LogDebug "[ES scrollQuery] scroll cleaned");;
     mret (totalData st))
      (add_log w (LogDebug "[ES.scrollQuery] scroll query body: ")).
Proof. intros H. unfold scrollQuery. run. by rewrite H. Qed.

Lemma scrollQuery_checks_names this esIndex esType requested :
  truthy_name esIndex = false ∨ truthy_name esType = false →
  scrollQuery_checks this esIndex esType requested =
    Throw (CodedError 400 "Invalid es index or es type name").
Proof.
  intros H. unfold scrollQuery_checks.
  by destruct H as [-> | ->]; rewrite ?orb_true_r.
Qed.

Lemma scrollQuery_checks_fields this esIndex esType requested r :
  truthy_name esIndex = true → truthy_name esType = true →
  getESFields this esIndex = Return (OneIndex (Some r)) →
  scrollQuery_checks this esIndex esType requested =
    match difference requested (fields r) with
    | [] => Return ()
    | (_ :: _) as fieldsNotBelong =>
        Throw (CodedError 400 (invalid_fields_message fieldsNotBelong))
    end.
Proof.
  intros Hi Ht Hr. unfold scrollQuery_checks. rewrite Hi, Ht. cbn [negb orb].
  rewrite Hr. unfold mbind, completion_bind. destruct r as [i t fs].
  cbn [fields]. by destruct (difference requested fs).
Qed.

(** C5: a call without an index or a document type, and a call asking
    for a field that is not in the field list cached for the index, is
    rejected with the 400 error before anything is asked of the engine;
    the second message quotes every such field. *)
Theorem scrollQuery_rejects_bad_request
    fuel esIndex esType flt requested sort w :
  (truthy_name esIndex = false ∨ truthy_name esType = false →
     scrollQuery fuel esIndex esType flt requested sort w =
       (Rejected (CodedError 400 "Invalid es index or es type name"), w))
  ∧ (∀ r names,
       truthy_name esIndex = true → truthy_name esType = true →
       getESFields (this w) esIndex = Return (OneIndex (Some r)) →
       requested = Some names →
       (∃ f, f ∈ names ∧ f ∉ fields r) →
       let offending := filter (λ f, f ∉ fields r) names in
       scrollQuery fuel esIndex esType flt requested sort w =
         (Rejected (CodedError 400 (invalid_fields_message offending)), w)
       ∧ ∀ f, f ∈ names → f ∉ fields r →
           f ∈ offending
           ∧ ∃ pre post, invalid_fields_message offending =
                           pre +:+ dquote +:+ f +:+ dquote +:+ post).
Proof.
  split.
  - intros H. apply scrollQuery_checks_throw.
    by apply scrollQuery_checks_names.
  - intros r names Hi Ht Hr -> (f & Hf & Hnf) offending.
    assert (Hoff : ∀ g, g ∈ names → g ∉ fields r → g ∈ offending).
    { intros g Hg Hng. by apply list_elem_of_filter. }
    split.
    + apply scrollQuery_checks_throw.
      rewrite (scrollQuery_checks_fields _ _ _ _ r Hi Ht Hr).
      cbn [difference]. fold offending.
      destruct offending as [|x l] eqn:Hl; [|done].
      specialize (Hoff f Hf Hnf). by apply elem_of_nil in Hoff.
    + intros g Hg Hng. split; [by apply Hoff|].
      destruct (join_quoted g offending (Hoff g Hg Hng)) as (pre & post & Heq).
      exists ("Invalid fields: " +:+ pre), post.
      unfold invalid_fields_message. by rewrite Heq, !append_assoc.
Qed.

(** C9: when one configured index has no field-type map in the cache,
    [getESFields] throws for every argument, the index given or not, and
    so every [scrollQuery] is rejected at its checks, with nothing asked
    of the engine. *)
Theorem missing_map_fails_every_lookup (es : ES) (cfg : IndexConfig) :
  cfg ∈ indices (config es) →
  (∀ ft, getESFieldTypeMappingByIndex es (index cfg) ≠ Return (Some ft)) →
  (∀ esIndex, getESFields es esIndex = Throw TypeError)
  ∧ (∀ fuel esIndex esType flt requested sort w,
       this w = es →
       ∃ e, scrollQuery fuel esIndex esType flt requested sort w
            = (Rejected e, w)
            ∧ (truthy_name esIndex = true → truthy_name esType = true →
               e = TypeError)).
Proof.
  intros Hin Hmiss.
  assert (Hall : ∀ esIndex, getESFields es esIndex = Throw TypeError).
  { intros esIndex. by eapply getESFields_poisoned. }
  split; [done|].
  intros fuel esIndex esType flt requested sort w Hthis.
  destruct (truthy_name esIndex) eqn:Hi, (truthy_name esType) eqn:Ht.
  - exists TypeError. split; [|done].
    apply scrollQuery_checks_throw. unfold scrollQuery_checks.
    rewrite Hi, Ht, Hthis, Hall. done.
  - exists (CodedError 400 "Invalid es index or es type name"). split; [|done].
    apply scrollQuery_checks_throw, scrollQuery_checks_names. by right.
  - exists (CodedError 400 "Invalid es index or es type name"). split; [|done].
    apply scrollQuery_checks_throw, scrollQuery_checks_names. by left.
  - exists (CodedError 400 "Invalid es index or es type name"). split; [|done].
    apply scrollQuery_checks_throw, scrollQuery_checks_names. by left.
Qed.
End Scroll.

Section ScrollLoop.
Context {σ : Type} (client : Client σ) (SCROLL_PAGE_SIZE : N).
Implicit Types (w : World σ) (st : ScrollState) (first : SearchParams).

Abbreviation scrollQuery := (scrollQuery client SCROLL_PAGE_SIZE).
Abbreviation scroll_params := (scroll_params SCROLL_PAGE_SIZE).
Abbreviation loop := (scrollQuery_loop client).
Abbreviation turn := (scrollQuery_turn client).

(** *** One turn *)

Lemma turn_first first st w resp s :
  scrollID st = None →
  client_search client first (engine w) = (Replied resp, s) →
  turn first st w =
    (Fulfilled (merge_batch st (body resp)),
     add_log (add_log (add_call w (CSearch first) Succeeded s)
                      (LogDebug "[ES scrollQuery] created scroll"))
             (LogDebug "[ES scrollQuery] get batch size = ")).
Proof.
  intros Hid Hreply. unfold scrollQuery_turn, scrollQuery_fetch.
  rewrite Hid. run. by rewrite Hreply.
Qed.

Lemma turn_first_failed first st w err s :
  scrollID st = None →
  client_search client first (engine w) = (Failed err, s) →
  turn first st w =
    (Rejected TypeError,
     add_log (add_log (add_call w (CSearch first) (FailedWith err) s)
                      (LogError "[ES.query] error when query"))
             (ConsoleTrace (message err))).
Proof.
  intros Hid Hreply. unfold scrollQuery_turn, scrollQuery_fetch.
  rewrite Hid. run. by rewrite Hreply.
Qed.

Lemma turn_next first st w id resp s :
  scrollID st = Some id →
  client_scroll client {| scroll_id := id; scroll_ttl := "1m" |} (engine w)
    = (Replied resp, s) →
  turn first st w =
    (Fulfilled (merge_batch st (body resp)),
     add_log (add_call w (CScroll {| scroll_id := id; scroll_ttl := "1m" |})
                       Succeeded s)
             (LogDebug "[ES scrollQuery] get batch size = ")).
Proof.
  intros Hid Hreply. unfold scrollQuery_turn, scrollQuery_fetch.
  rewrite Hid. run. by rewrite Hreply.
Qed.

Lemma turn_next_failed first st w id err s :
  scrollID st = Some id →
  client_scroll client {| scroll_id := id; scroll_ttl := "1m" |} (engine w)
    = (Failed err, s) →
  turn first st w =
    (Rejected (Upstream err),
     add_call w (CScroll {| scroll_id := id; scroll_ttl := "1m" |})
              (FailedWith err) s).
Proof.
  intros Hid Hreply. unfold scrollQuery_turn, scrollQuery_fetch.
  rewrite Hid. run. by rewrite Hreply.
Qed.

(** A turn asks the engine for one page, and is rejected exactly when
    that request fails. *)
Lemma turn_trace first st w :
  ∃ c o, calls (turn first st w).2 = calls w ++ [(c, o)]
    ∧ not_release (c, o)
    ∧ match (turn first st w).1 with
      | Fulfilled _ => o = Succeeded
      | Rejected e => ∃ err, o = FailedWith err ∧ page_failure c err e
      | Pending => False
      end.
Proof.
  destruct (scrollID st) as [id|] eqn:Hid.
  - destruct (client_scroll client {| scroll_id := id; scroll_ttl := "1m" |}
                (engine w)) as [[resp|err] s] eqn:Hreply.
    + rewrite (turn_next _ _ _ _ _ _ Hid Hreply). by eexists _, _.
    + rewrite (turn_next_failed _ _ _ _ _ _ Hid Hreply).
      eexists _, _. split_and!; [done..|].
      exists err. split; [done|]. right. eauto.
  - destruct (client_search client first (engine w))
      as [[resp|err] s] eqn:Hreply.
    + rewrite (turn_first _ _ _ _ _ Hid Hreply). by eexists _, _.
    + rewrite (turn_first_failed _ _ _ _ _ Hid Hreply).
      eexists _, _. split_and!; [done..|].
      exists err. split; [done|]. left. eauto.
Qed.

(** *** The loop *)

Lemma loop_turn fuel first st w :
  scroll_continues st = true →
  loop (S fuel) first st w =
    match turn first st w with
    | (Fulfilled st', w') => loop fuel first st' w'
    | (Rejected e, w') => (Rejected e, w')
    | (Pending, w') => (Pending, w')
    end.
Proof. intros H. cbn [scrollQuery_loop]. by rewrite H. Qed.

Lemma loop_exit fuel first st w :
  scroll_continues st = false → loop fuel first st w = (Fulfilled st, w).
Proof. intros H. destruct fuel; cbn [scrollQuery_loop]; by rewrite H. Qed.

(** The loop asks for pages only, never for a release; it is rejected
    exactly when its last request failed, all earlier ones having
    succeeded. *)
Lemma loop_trace fuel first st w :
  ∃ new, calls (loop fuel first st w).2 = calls w ++ new
    ∧ Forall not_release new
    ∧ match (loop fuel first st w).1 with
      | Rejected e =>
          ∃ init c err, new = init ++ [(c, FailedWith err)]
            ∧ Forall succeeded init ∧ page_failure c err e
      | _ => Forall succeeded new
      end.
Proof.
  revert st w. induction fuel as [|fuel IH]; intros st w.
  - destruct (scroll_continues st) eqn:Hc.
    + exists []. cbn [scrollQuery_loop]. rewrite Hc. cbn.
      by rewrite app_nil_r.
    + rewrite (loop_exit _ _ _ _ Hc). exists []. cbn. by rewrite app_nil_r.
  - destruct (scroll_continues st) eqn:Hc.
    2:{ rewrite (loop_exit _ _ _ _ Hc). exists []. cbn. by rewrite app_nil_r. }
    rewrite (loop_turn _ _ _ _ Hc).
    destruct (turn_trace first st w) as (c & o & Hcalls & Hnr & Hres).
    destruct (turn first st w) as [[st'|e|] w1]; cbn [fst snd] in *.
    + subst o. destruct (IH st' w1) as (new & Hnew & Hall & Hr).
      exists ((c, Succeeded) :: new). split_and!.
      * rewrite Hnew, Hcalls. by rewrite <- app_assoc.
      * by constructor.
      * destruct (loop fuel first st' w1).1 as [a|e|].
        -- by constructor.
        -- destruct Hr as (init & c' & err & -> & Hinit & Hfail).
           exists ((c, Succeeded) :: init), c', err.
           split_and!; [done| |done]. by constructor.
        -- by constructor.
    + destruct Hres as (err & -> & Hfail).
      exists [(c, FailedWith err)]. split_and!; [done| |].
      * by constructor.
      * by exists [], c, err.
    + done.
Qed.
End ScrollLoop.

Section ScrollRuns.
Context {σ : Type} (client : Client σ) (SCROLL_PAGE_SIZE : N).
Implicit Types (w : World σ) (st : ScrollState).

Abbreviation scrollQuery' := (scrollQuery client SCROLL_PAGE_SIZE).
Abbreviation scroll_params' := (scroll_params SCROLL_PAGE_SIZE).

Lemma issued_app w w' new : calls w' = calls w ++ new → issued w w' = new.
Proof. intros H. unfold issued. by rewrite H, drop_app_length. Qed.

Lemma released_app w w' new :
  calls w' = calls w ++ new →
  released w' =
    released w ++
    omap (λ ev, match ev.1 with CClearScroll p => Some p | _ => None end) new.
Proof. intros H. unfold released. by rewrite H, omap_app. Qed.

(** C1: pages of sizes 2, 2 and 0.  A request that passes the checks,
    against an engine that answers the search with a page of two
    documents, the two continuations with a page of two and an empty
    page, and then the release, is fulfilled with the four documents,
    first page first and each page in the order received; the engine is
    asked for the search, the two continuations and then one release,
    with the cursor of the empty page, and nothing else. *)
Theorem scrollQuery_pages_2_2_0
    fuel esIndex esType flt requested sort w b1 b2 b3 c1 c2 s1 s2 s3 s4 :
  scrollQuery_checks (this w) esIndex esType requested = Return () →
  client_search client (scroll_params' esIndex esType flt requested sort)
    (engine w) = (Replied {| body := b1 |}, s1) →
  _scroll_id b1 = Some c1 → length (hits b1) = 2 →
  client_scroll client {| scroll_id := c1; scroll_ttl := "1m" |} s1
    = (Replied {| body := b2 |}, s2) →
  _scroll_id b2 = Some c2 → length (hits b2) = 2 →
  client_scroll client {| scroll_id := c2; scroll_ttl := "1m" |} s2
    = (Replied {| body := b3 |}, s3) →
  length (hits b3) = 0 →
  client_clearScroll client {| clear_scroll_id := _scroll_id b3 |} s3
    = (Replied (), s4) →
  3 ≤ fuel →
  ∃ w',
    scrollQuery' fuel esIndex esType flt requested sort w =
      (Fulfilled (map _source (hits b1) ++ map _source (hits b2)), w')
    ∧ length (map _source (hits b1) ++ map _source (hits b2)) = 4
    ∧ calls w' = calls w ++
        [(CSearch (scroll_params' esIndex esType flt requested sort), Succeeded);
         (CScroll {| scroll_id := c1; scroll_ttl := "1m" |}, Succeeded);
         (CScroll {| scroll_id := c2; scroll_ttl := "1m" |}, Succeeded);
         (CClearScroll {| clear_scroll_id := _scroll_id b3 |}, Succeeded)]
    ∧ released w' = released w ++ [{| clear_scroll_id := _scroll_id b3 |}].
Proof.
  intros Hchecks H1 Hc1 Hn1 H2 Hc2 Hn2 H3 Hn3 H4 Hfuel.
  destruct fuel as [|[|[|fuel]]]; [lia..|].
  rewrite (scrollQuery_checks_return _ _ _ _ _ _ _ _ _ Hchecks).
  unfold mbind at 1, async_bind at 1.
  rewrite loop_turn by done.
  erewrite turn_first; [|done|exact H1]. cbn [body].
  rewrite loop_turn by (unfold scroll_continues, merge_batch; cbn; by rewrite Hn1).
  erewrite turn_next; [|exact Hc1|exact H2]. cbn [body].
  rewrite loop_turn by (unfold scroll_continues, merge_batch; cbn; by rewrite Hn2).
  erewrite turn_next; [|exact Hc2|exact H3]. cbn [body].
  rewrite loop_exit by (unfold scroll_continues, merge_batch; cbn; by rewrite Hn3).
  run. cbn [merge_batch scrollID totalData add_log add_call engine].
  rewrite H4. cbn [app].
  assert (Hnil : map _source (hits b3) = []).
  { destruct (hits b3); [done|]. cbn in Hn3. lia. }
  rewrite Hnil, app_nil_r.
  eexists. split; [reflexivity|].
  split_and!.
  - rewrite length_app, !length_map. lia.
  - cbn [add_log add_call calls]. by rewrite <- !app_assoc.
  - erewrite released_app;
      [|cbn [add_log add_call calls]; by rewrite <- !app_assoc].
    done.
Qed.
End ScrollRuns.

Section ScrollFailures.
Context {σ : Type} (client : Client σ) (SCROLL_PAGE_SIZE : N).
Implicit Types (w : World σ) (st : ScrollState).

Abbreviation scrollQuery'' := (scrollQuery client SCROLL_PAGE_SIZE).

Lemma succeeded_not_failed (new : list (Call * Outcome)) c err :
  Forall succeeded new → (c, FailedWith err) ∈ new → False.
Proof.
  intros Hall Hin. rewrite Forall_forall in Hall.
  by specialize (Hall _ Hin).
Qed.

Lemma released_unchanged w w' new :
  calls w' = calls w ++ new → Forall not_release new →
  released w' = released w.
Proof.
  intros Hcalls Hnr. rewrite (released_app _ _ _ Hcalls).
  rewrite <- (app_nil_r (released w)) at 2. f_equal. clear Hcalls.
  induction Hnr as [|[c o] l Hc _ IH]; [done|].
  cbn [omap list_omap]. rewrite IH.
  unfold not_release, is_clearScroll in Hc. cbn in *. by destruct c.
Qed.

(** C2, as the code has it: when a page request of a run fails, the
    promise is rejected, with a [TypeError] for the first page (whose
    response is then [undefined]) and with the transport error for a
    continuation, and the run asks for no release at all: the cursor is
    released only after the loop has ended on an empty page. *)
Theorem scrollQuery_failed_fetch_is_not_released
    fuel esIndex esType flt requested sort w c err :
  let run := scrollQuery'' fuel esIndex esType flt requested sort w in
  is_page_fetch (c, FailedWith err) = true →
  (c, FailedWith err) ∈ issued w run.2 →
  ∃ e, run.1 = Rejected e
    ∧ page_failure c err e
    ∧ Forall not_release (issued w run.2)
    ∧ released run.2 = released w.
Proof.
  intros run Hpage. subst run.
  destruct (scrollQuery_checks (this w) esIndex esType requested)
    as [[]|e] eqn:Hchecks.
  2:{ rewrite (scrollQuery_checks_throw _ _ _ _ _ _ _ _ _ _ Hchecks).
      cbn [snd]. unfold issued. rewrite drop_all.
      intros Hin. by apply elem_of_nil in Hin. }
  rewrite (scrollQuery_checks_return _ _ _ _ _ _ _ _ _ Hchecks).
  set (w0 := add_log w _). set (first := scroll_params _ _ _ _ _ _).
  destruct (loop_trace client fuel first scroll_start w0)
    as (new & Hnew & Hnr & Hres).
  change (calls w0) with (calls w) in Hnew. run.
  destruct (scrollQuery_loop client fuel first scroll_start w0)
    as [[st|e|] w1]; cbn [fst snd] in *.
  - cbn [add_log engine].
    destruct (client_clearScroll client _ (engine w1)) as [[[]|err'] s];
      cbn [fst snd]; intros Hin; exfalso.
    all: rewrite (issued_app w _ (new ++ [(CClearScroll
           {| clear_scroll_id := scrollID st |}, _)])) in Hin
         by (cbn [add_log add_call calls]; by rewrite Hnew, <- app_assoc).
    all: apply elem_of_app in Hin as [Hin|Hin];
         [by eapply succeeded_not_failed|].
    all: apply list_elem_of_singleton in Hin; injection Hin as -> _;
         discriminate Hpage.
  - rewrite (issued_app _ _ _ Hnew). intros Hin.
    destruct Hres as (init & c' & err' & -> & Hinit & Hfail).
    apply elem_of_app in Hin as [Hin|Hin];
      [exfalso; by eapply succeeded_not_failed|].
    apply list_elem_of_singleton in Hin. injection Hin as -> ->.
    exists e. split_and!; [done..|]. by eapply released_unchanged.
  - rewrite (issued_app _ _ _ Hnew). intros Hin. exfalso.
    by eapply succeeded_not_failed.
Qed.
End ScrollFailures.

(** ** [initialize] *)

Section Initialize.
Context {σ : Type} (client : Client σ).
Implicit Types (w : World σ) (cfg : IndexConfig).

Abbreviation fetch_one := (fetch_fieldTypes client).

Lemma getESFieldsTypes_replied esIndex esType w resp s ft :
  client_getMapping client
    {| mapping_index := esIndex; mapping_type := esType |} (engine w)
    = (Replied resp, s) →
  fieldTypesOfMapping resp esType = Return ft →
  _getESFieldsTypes client esIndex esType w =
    (Fulfilled (Some ft),
     add_call w (CGetMapping {| mapping_index := esIndex;
                                mapping_type := esType |}) Succeeded s).
Proof.
  intros Hreply Hft. unfold _getESFieldsTypes. run.
  by rewrite Hreply, Hft.
Qed.

Lemma getESFieldsTypes_failed esIndex esType w err s :
  client_getMapping client
    {| mapping_index := esIndex; mapping_type := esType |} (engine w)
    = (Failed err, s) →
  _getESFieldsTypes client esIndex esType w =
    (Fulfilled None,
     add_log (add_call w (CGetMapping {| mapping_index := esIndex;
                                         mapping_type := esType |})
                       (FailedWith err) s)
             (ConsoleTrace (message err))).
Proof.
  intros Hreply. unfold _getESFieldsTypes. run. by rewrite Hreply.
Qed.

(** Fetching a mapping does not touch the receiver. *)
Lemma getESFieldsTypes_this esIndex esType w :
  this (_getESFieldsTypes client esIndex esType w).2 = this w.
Proof.
  unfold _getESFieldsTypes. run.
  destruct (client_getMapping client _ (engine w)) as [[resp|err] s];
    [|done].
  by destruct (fieldTypesOfMapping resp esType).
Qed.

Lemma fetch_all_this cfgs w :
  this (Promise_all (map fetch_one cfgs) w).2 = this w.
Proof.
  revert w. induction cfgs as [|cfg cfgs IH]; intros w; [done|].
  cbn [map Promise_all].
  destruct (fetch_one cfg w) as [r w1] eqn:H1.
  specialize (IH w1).
  destruct (Promise_all (map fetch_one cfgs) w1) as [rs w2].
  cbn [snd] in *. rewrite IH.
  pose proof (getESFieldsTypes_this (index cfg) (type cfg) w) as Hthis.
  revert H1. unfold fetch_fieldTypes. run.
  destruct (_getESFieldsTypes client (index cfg) (type cfg) w)
    as [[a|e|] w']; cbn [snd] in Hthis; by intros [= _ <-].
Qed.

(** The results come in the order of the configuration, one per
    configured index. *)
Lemma fetch_all_names cfgs w resultList :
  (Promise_all (map fetch_one cfgs) w).1 = Fulfilled resultList →
  resultList.*1 = index <$> cfgs.
Proof.
  revert w resultList.
  induction cfgs as [|cfg cfgs IH]; intros w resultList.
  - by intros [= <-].
  - cbn [map Promise_all].
    destruct (fetch_one cfg w) as [r w1] eqn:H1.
    specialize (IH w1).
    destruct (Promise_all (map fetch_one cfgs) w1) as [rs w2].
    cbn [fst] in *.
    destruct r as [a|e|]; [|done..].
    destruct rs as [l|e|]; [|done..].
    intros [= <-]. cbn [fmap list_fmap]. rewrite (IH l eq_refl).
    f_equal. revert H1. unfold fetch_fieldTypes. run.
    destruct (_getESFieldsTypes client (index cfg) (type cfg) w)
      as [[a'|e|] w']; [|done..]. by intros [= <- _].
Qed.

Lemma initialize_begin_spec w :
  initialize_begin w =
    (Fulfilled (),
     add_log {| this := cleared (this w); engine := engine w;
                calls := calls w; logs := logs w |}
             (LogInfo "[ES.initialize] getting mapping from elasticsearch...")).
Proof. reflexivity. Qed.

Lemma forEach_cons {A} (f : A → Async σ ()) (x : A) (arr : list A) w :
  forEach f (x :: arr) w =
    match f x w with
    | (Fulfilled _, w') => forEach f arr w'
    | (Rejected e, w') => (Rejected e, w')
    | (Pending, w') => (Pending, w')
    end.
Proof. reflexivity. Qed.

Lemma store_fieldTypes_spec res w ft :
  fieldTypes (this w) = Some ft →
  store_fieldTypes res w =
    (Fulfilled (),
     {| this := {| config := config (this w);
                   fieldTypes := Some (<[res.1 := res.2]> ft) |};
        engine := engine w; calls := calls w; logs := logs w |}).
Proof. intros Hft. unfold store_fieldTypes. run. by rewrite Hft. Qed.

Lemma forEach_store resultList w ft :
  fieldTypes (this w) = Some ft →
  forEach store_fieldTypes resultList w =
    (Fulfilled (),
     {| this := {| config := config (this w);
                   fieldTypes := Some (install ft resultList) |};
        engine := engine w; calls := calls w; logs := logs w |}).
Proof.
  revert w ft. induction resultList as [|res l IH]; intros w ft Hft.
  - cbn. destruct w as [[cfg ?] ? ? ?]. cbn in *. by subst.
  - rewrite forEach_cons, (store_fieldTypes_spec _ _ _ Hft).
    by erewrite IH.
Qed.

Lemma initialize_finish_spec resultList w ft :
  fieldTypes (this w) = Some ft →
  ∃ w', initialize_finish resultList w
          = (Fulfilled (Some (install ft resultList)), w')
    ∧ this w' = {| config := config (this w);
                   fieldTypes := Some (install ft resultList) |}
    ∧ calls w' = calls w ∧ engine w' = engine w.
Proof.
  intros Hft. unfold initialize_finish. run.
  erewrite forEach_store; [|exact Hft]. by eexists.
Qed.

(** C4, as the code has it: a run of [initialize] first replaces the
    cache by the empty map, and that is what a read sees while the
    mapping requests are awaited, whatever was installed before; the
    results are stored after the await in one go, so a read sees the
    empty map or the map with an entry for every configured index, and
    never a map with some of the new entries only.  A run whose fetches
    are rejected leaves the empty map. *)
Theorem initialize_clears_then_installs w :
  ∃ final,
    initialize_observed client w = [cleared (this w); cleared (this w); final]
    ∧ config final = config (this w)
    ∧ match (initialize_fetch client (initialize_begin w).2).1 with
      | Fulfilled resultList =>
          fieldTypes final = Some (install ∅ resultList)
          ∧ resultList.*1 = index <$> indices (config (this w))
          ∧ (initialize client w).1 = Fulfilled (fieldTypes final)
      | _ => final = cleared (this w)
      end.
Proof.
  unfold initialize_observed, initialize.
  rewrite initialize_begin_spec. cbn [snd].
  set (w1 := add_log _ _).
  assert (Hthis1 : this w1 = cleared (this w)) by done.
  unfold initialize_fetch. run.
  pose proof (fetch_all_this (indices (config (this w1))) w1) as Hthis2.
  pose proof (fetch_all_names (indices (config (this w1))) w1) as Hnames.
  rewrite initialize_begin_spec. fold w1.
  destruct (Promise_all _ w1) as [[resultList|e|] w2]; cbn [fst snd] in *.
  - destruct (initialize_finish_spec resultList w2 ∅) as (w3 & -> & Hw3 & _).
    { by rewrite Hthis2, Hthis1. }
    exists (this w3). rewrite Hthis2, Hthis1, Hw3. cbn.
    split_and!; try done.
    + by rewrite Hthis2, Hthis1.
    + by apply Hnames.
  - exists (cleared (this w)). by rewrite Hthis2, Hthis1.
  - exists (cleared (this w)). by rewrite Hthis2, Hthis1.
Qed.

Lemma fetch_fieldTypes_replied cfg w resp s ft :
  client_getMapping client
    {| mapping_index := index cfg; mapping_type := type cfg |} (engine w)
    = (Replied resp, s) →
  fieldTypesOfMapping resp (type cfg) = Return ft →
  fetch_fieldTypes client cfg w =
    (Fulfilled (index cfg, Some ft),
     add_call w (CGetMapping {| mapping_index := index cfg;
                                mapping_type := type cfg |}) Succeeded s).
Proof.
  intros Hreply Hft. unfold fetch_fieldTypes. run.
  by rewrite (getESFieldsTypes_replied _ _ _ _ _ _ Hreply Hft).
Qed.

Lemma fetch_fieldTypes_failed cfg w err s :
  client_getMapping client
    {| mapping_index := index cfg; mapping_type := type cfg |} (engine w)
    = (Failed err, s) →
  fetch_fieldTypes client cfg w =
    (Fulfilled (index cfg, None),
     add_log (add_call w (CGetMapping {| mapping_index := index cfg;
                                         mapping_type := type cfg |})
                       (FailedWith err) s)
             (ConsoleTrace (message err))).
Proof.
  intros Hreply. unfold fetch_fieldTypes. run.
  by rewrite (getESFieldsTypes_failed _ _ _ _ _ Hreply).
Qed.

(** C3, as the code has it: over two configured indices with different
    names, the first mapping fetched and the second fetch failing,
    [initialize] is fulfilled; the cache holds the field types of the
    first index, and holds the key of the second with the value
    [undefined], which is what reading that entry gives.  The failure
    neither rejects the run nor drops the first result. *)
Theorem initialize_failed_index_is_undefined w A B respA ft err s1 s2 :
  indices (config (this w)) = [A; B] →
  index A ≠ index B →
  client_getMapping client
    {| mapping_index := index A; mapping_type := type A |} (engine w)
    = (Replied respA, s1) →
  fieldTypesOfMapping respA (type A) = Return ft →
  client_getMapping client
    {| mapping_index := index B; mapping_type := type B |} s1
    = (Failed err, s2) →
  ∃ cache w',
    initialize client w = (Fulfilled (Some cache), w')
    ∧ fieldTypes (this w') = Some cache
    ∧ cache !! index A = Some (Some ft)
    ∧ cache !! index B = Some None
    ∧ dom cache = {[index A; index B]}
    ∧ getESFieldTypeMappingByIndex (this w') (index B) = Return None.
Proof.
  intros Hcfg Hne HA Hft HB.
  unfold initialize. unfold mbind at 1, async_bind at 1.
  rewrite initialize_begin_spec. set (w1 := add_log _ _).
  unfold mbind at 1, async_bind at 1.
  unfold initialize_fetch. unfold mbind at 1, async_bind at 1, get_this.
  change (config (this w1)) with (config (this w)). rewrite Hcfg.
  cbn [map Promise_all].
  erewrite fetch_fieldTypes_replied; [|exact HA|exact Hft].
  erewrite fetch_fieldTypes_failed; [|exact HB]. run.
  destruct (initialize_finish_spec [(index A, Some ft); (index B, None)]
    (add_log (add_call (add_call w1
       (CGetMapping {| mapping_index := index A; mapping_type := type A |})
       Succeeded s1)
       (CGetMapping {| mapping_index := index B; mapping_type := type B |})
       (FailedWith err) s2) (ConsoleTrace (message err))) ∅)
    as (w3 & -> & Hw3 & _); [done|].
  eexists _, w3. split; [reflexivity|]. rewrite Hw3.
  unfold getESFieldTypeMappingByIndex, install. cbn.
  rewrite lookup_insert_eq. rewrite lookup_insert_ne by done.
  rewrite lookup_insert_eq. split_and!; try done.
  rewrite !dom_insert_L, dom_empty_L, (right_id_L ∅ (∪)). apply (comm_L (∪)).
Qed.
End Initialize.

(** * The properties on the fixtures *)

Lemma scrollQuery_pages_2_2_0_witness :
  ∃ w',
    export 3 world_pages = (Fulfilled [doc 1; doc 2; doc 3; doc 4], w')
    ∧ length [doc 1; doc 2; doc 3; doc 4] = 4
    ∧ calls w' =
        [(CSearch first_request, Succeeded);
         (CScroll {| scroll_id := "c1"; scroll_ttl := "1m" |}, Succeeded);
         (CScroll {| scroll_id := "c2"; scroll_ttl := "1m" |}, Succeeded);
         (CClearScroll {| clear_scroll_id := Some "c3" |}, Succeeded)]
    ∧ released w' = [{| clear_scroll_id := Some "c3" |}].
Proof.
  apply (scrollQuery_pages_2_2_0 scripted 100 3 (Some "subject") (Some "case")
           JUndefined age_fields JUndefined world_pages
           {| _scroll_id := Some "c1"; hits := map Build_Hit [doc 1; doc 2] |}
           {| _scroll_id := Some "c2"; hits := map Build_Hit [doc 3; doc 4] |}
           {| _scroll_id := Some "c3"; hits := [] |}
           "c1" "c2"
           [page "c2" [doc 3; doc 4]; page "c3" []; SCleared (Replied ())]
           [page "c3" []; SCleared (Replied ())]
           [SCleared (Replied ())] []);
    first [reflexivity | lia].
Defined.

Lemma scrollQuery_continuation_failure_leaks_cursor :
  (export 5 world_second_down).1 = Rejected (Upstream down)
  ∧ calls (export 5 world_second_down).2 =
      [(CSearch first_request, Succeeded); (c1_scroll, FailedWith down)]
  ∧ ¬ (∃ o, (CClearScroll {| clear_scroll_id := Some "c1" |}, o)
              ∈ calls (export 5 world_second_down).2).
Proof.
  split_and!; [reflexivity..|].
  intros [o Hin].
  change (calls (export 5 world_second_down).2)
    with [(CSearch first_request, Succeeded); (c1_scroll, FailedWith down)] in Hin.
  apply elem_of_cons in Hin as [Hin|Hin]; [discriminate|].
  apply elem_of_cons in Hin as [Hin|Hin]; [discriminate|].
  by apply elem_of_nil in Hin.
Qed.

Lemma scrollQuery_failed_fetch_is_not_released_witness :
  ∃ e, (export 5 world_second_down).1 = Rejected e
    ∧ page_failure c1_scroll down e
    ∧ Forall not_release (issued world_second_down (export 5 world_second_down).2)
    ∧ released (export 5 world_second_down).2 = released world_second_down.
Proof.
  apply (scrollQuery_failed_fetch_is_not_released scripted 100 5
           (Some "subject") (Some "case") JUndefined age_fields JUndefined
           world_second_down c1_scroll down).
  - reflexivity.
  - change ((c1_scroll, FailedWith down)
              ∈ [(CSearch first_request, Succeeded); (c1_scroll, FailedWith down)]).
    apply list_elem_of_further, list_elem_of_here.
Defined.

Lemma initialize_keeps_failed_index_key :
  ∃ cache,
    (initialize scripted world_B_down).1 = Fulfilled (Some cache)
    ∧ cache !! "subject" = Some (Some ftA)
    ∧ ¬ (cache !! "file" = None)
    ∧ "file" ∈ dom cache.
Proof.
  exists (<["file" := None]> (<["subject" := Some ftA]> ∅)).
  split_and!; [reflexivity..| |].
  - by rewrite lookup_insert_eq.
  - rewrite dom_insert_L. apply elem_of_union_l. by apply elem_of_singleton.
Qed.

Lemma initialize_failed_index_is_undefined_witness :
  ∃ cache w',
    initialize scripted world_B_down = (Fulfilled (Some cache), w')
    ∧ fieldTypes (this w') = Some cache
    ∧ cache !! "subject" = Some (Some ftA)
    ∧ cache !! "file" = Some None
    ∧ dom cache = {["subject"; "file"]}
    ∧ getESFieldTypeMappingByIndex (this w') "file" = Return None.
Proof.
  apply (initialize_failed_index_is_undefined scripted world_B_down cfgA cfgB
           subject_mapping ftA down [SMapping (Failed down)] []).
  - reflexivity.
  - discriminate.
  - reflexivity.
  - reflexivity.
  - reflexivity.
Defined.

Lemma initialize_is_not_atomic : ¬ installs_atomically scripted world_refresh.
Proof.
  intros H. specialize (H (cleared es_ready)).
  destruct H as [H|H].
  - apply list_elem_of_here.
  - apply (f_equal (λ o, o ≫= (.!! "subject"))) in H. discriminate H.
  - apply (f_equal (λ o, o ≫= (.!! "subject"))) in H. discriminate H.
Qed.

Lemma scrollQuery_rejects_bad_request_witness :
  scrollQuery scripted 100 3 (Some "subject") None JUndefined age_fields
    JUndefined world_pages
  = (Rejected (CodedError 400 "Invalid es index or es type name"), world_pages)
  ∧ scrollQuery scripted 100 3 (Some "subject") (Some "case") JUndefined
      (Some ["age"; "zip"; "foo"]) JUndefined world_pages
    = (Rejected (CodedError 400 (invalid_fields_message ["zip"; "foo"])),
       world_pages).
Proof.
  split.
  - apply (proj1 (scrollQuery_rejects_bad_request scripted 100 3
             (Some "subject") None JUndefined age_fields JUndefined
             world_pages)).
    right. reflexivity.
  - refine (proj1 (proj2 (scrollQuery_rejects_bad_request scripted 100 3
             (Some "subject") (Some "case") JUndefined
             (Some ["age"; "zip"; "foo"]) JUndefined world_pages)
             {| fields_index := "subject"; fields_type := "case";
                fields := ["gender"; "age"] |}
             ["age"; "zip"; "foo"] eq_refl eq_refl eq_refl eq_refl _)).
    exists "zip". split.
    + apply list_elem_of_further, list_elem_of_here.
    + intros Hin.
      apply elem_of_cons in Hin as [Hin|Hin]; [discriminate|].
      apply elem_of_cons in Hin as [Hin|Hin]; [discriminate|].
      by apply elem_of_nil in Hin.
Defined.

Lemma query_sends_stripped_body_witness :
  validateQueryBody body_plain = body_plain.
Proof.
  refine (proj1 (proj2 (proj2 (query_sends_stripped_body scripted
            (Some "subject") (Some "case") body_plain world_pages))) _).
  intros key v Hkey. unfold body_plain in Hkey.
  apply lookup_insert_Some in Hkey as [[_ <-]|[_ Hkey]]; [reflexivity|].
  apply lookup_insert_Some in Hkey as [[_ <-]|[_ Hkey]]; [reflexivity|].
  by rewrite lookup_empty in Hkey.
Defined.

Lemma query_stripping_is_shallow_witness :
  ∃ p o,
    calls (query scripted (Some "subject") (Some "case") body_nested
             world_pages).2
    = calls world_pages ++ [(CSearch p, o)]
    ∧ search_body p !! "query" = Some (JObj range_with_nulls).
Proof.
  apply (query_stripping_is_shallow scripted (Some "subject") (Some "case")
           body_nested "query" range_with_nulls world_pages).
  reflexivity.
Defined.

Lemma query_swallows_transport_failure_witness :
  query scripted (Some "subject") (Some "case") body_nested world_search_down
  = (Fulfilled None,
     {| this := es_ready; engine := [];
        calls := [(CSearch (query_params (Some "subject") (Some "case")
                                         body_nested), FailedWith down)];
        logs := [LogInfo "[ES.query] query body: ";
                 LogError "[ES.query] error when query";
                 ConsoleTrace "connect ECONNREFUSED"] |}).
Proof.
  apply (query_swallows_transport_failure scripted (Some "subject")
           (Some "case") body_nested world_search_down down []).
  reflexivity.
Defined.

Lemma getESIndexByType_spec_witness :
  getESIndexByType es_ready "project"
  = Throw (CodedError 400 ("Invalid es type: " +:+ dquote +:+ "project" +:+ dquote))
  ∧ ∃ pre found post,
      indices config_AB = pre ++ found :: post
      ∧ (∀ c, c ∈ pre → type c ≠ "file")
      ∧ type found = "file"
      ∧ getESIndexByType es_ready "file" = Return (index found).
Proof.
  split.
  - apply (proj1 (getESIndexByType_spec es_ready "project")).
    intros cfg Hin.
    apply elem_of_cons in Hin as [->|Hin]; [discriminate|].
    apply elem_of_cons in Hin as [->|Hin]; [discriminate|].
    by apply elem_of_nil in Hin.
  - apply (proj2 (getESIndexByType_spec es_ready "file") cfgB).
    + apply list_elem_of_further, list_elem_of_here.
    + reflexivity.
Defined.

Lemma missing_map_fails_every_lookup_witness :
  (∀ esIndex, getESFields es_B_undefined esIndex = Throw TypeError)
  ∧ (∀ fuel esIndex esType flt requested sort (w : World (list Scripted)),
       this w = es_B_undefined →
       ∃ e, scrollQuery scripted 100 fuel esIndex esType flt requested sort w
            = (Rejected e, w)
            ∧ (truthy_name esIndex = true → truthy_name esType = true →
               e = TypeError)).
Proof.
  apply (missing_map_fails_every_lookup scripted 100 es_B_undefined cfgB).
  - apply list_elem_of_further, list_elem_of_here.
  - intros ft. discriminate.
Defined.

(** * Further properties *)

(** ** Reading a mapping response *)

Section Mapping.
Implicit Types (props : list (string * FieldMapping)) (key : string).

Lemma assign_fresh {V} (acc : list (string * V)) key (v : V) :
  key ∉ acc.*1 → assign acc key v = acc ++ [(key, v)].
Proof.
  induction acc as [|[k w] acc IH]; intros Hfresh; [done|].
  cbn [assign]. rewrite fmap_cons in Hfresh. cbn [fst] in Hfresh.
  apply not_elem_of_cons in Hfresh as [Hne Hfresh].
  rewrite decide_False by done. by rewrite IH.
Qed.

Lemma lookup_key_elem {V} (o : list (string * V)) key (v : V) :
  NoDup o.*1 → (key, v) ∈ o → lookup_key o key = Some v.
Proof.
  induction o as [|[k w] o IH]; intros Hnd Hin; [by apply elem_of_nil in Hin|].
  rewrite fmap_cons in Hnd. apply NoDup_cons in Hnd as [Hk Hnd].
  cbn [lookup_key]. apply elem_of_cons in Hin as [[= <- <-]|Hin].
  - by rewrite decide_True.
  - rewrite decide_False; [by apply IH|].
    intros ->. apply Hk. apply list_elem_of_fmap. by exists (key, v).
Qed.

Lemma reduce_fieldTypes_app props seen todo :
  props = seen ++ todo → NoDup props.*1 →
  reduce_fieldTypes props todo.*1 (field_entry <$> seen)
  = Return (field_entry <$> props).
Proof.
  revert seen. induction todo as [|[k fm] todo IH]; intros seen Heq Hnd.
  - rewrite app_nil_r in Heq. by subst.
  - rewrite fmap_cons. cbn [fst reduce_fieldTypes].
    rewrite (lookup_key_elem props k fm Hnd).
    2:{ subst props. apply elem_of_app. right. apply list_elem_of_here. }
    rewrite assign_fresh.
    + specialize (IH (seen ++ [(k, fm)])).
      rewrite fmap_app in IH. apply IH; [|done].
      by rewrite <- app_assoc.
    + subst props. rewrite fmap_app, fmap_cons in Hnd.
      apply NoDup_app in Hnd as (_ & Hdisj & _).
      rewrite <- list_fmap_compose. intros Hin. apply (Hdisj k).
      * exact Hin.
      * apply list_elem_of_here.
Qed.

(** X1: from a response whose first alias maps the document type to
    properties with distinct names, the field-type map has one entry per
    property, in the order of the properties, holding its [type]. *)
Theorem fieldTypesOfMapping_well_formed resp esType alias entry others tm props :
  mapping_body resp = (alias, entry) :: others →
  lookup_key (mappings entry) esType = Some tm →
  properties tm = Some props →
  NoDup props.*1 →
  fieldTypesOfMapping resp esType = Return (field_entry <$> props).
Proof.
  intros Hbody Htm Hprops Hnd. unfold fieldTypesOfMapping.
  rewrite Hbody. cbn [fmap list_fmap head fst lookup_key].
  rewrite decide_True by done. rewrite Htm, Hprops.
  by apply (reduce_fieldTypes_app props []).
Qed.

End Mapping.

(** ** More on [initialize] *)

Section InitializeRuns.
Context {σ : Type} (client : Client σ).
Implicit Types (w : World σ) (cfg : IndexConfig).

Abbreviation fetch := (fetch_fieldTypes client).

Lemma fetch_fieldTypes_call cfg w :
  ∃ o, calls (fetch cfg w).2 = calls w ++ [(mapping_request cfg, o)].
Proof.
  unfold fetch_fieldTypes, _getESFieldsTypes. run.
  destruct (client_getMapping client _ (engine w)) as [[resp|err] s].
  - destruct (fieldTypesOfMapping resp (type cfg)); by eexists.
  - by eexists.
Qed.

Lemma Promise_all_cons {A} (p : Async σ A) (rest : list (Async σ A)) w :
  Promise_all (p :: rest) w =
    (match (p w).1, (Promise_all rest (p w).2).1 with
     | Rejected e, _ => Rejected e
     | Pending, _ => Pending
     | Fulfilled a, Fulfilled l => Fulfilled (a :: l)
     | Fulfilled _, Rejected e => Rejected e
     | Fulfilled _, Pending => Pending
     end, (Promise_all rest (p w).2).2).
Proof.
  cbn [Promise_all]. destruct (p w) as [r w1]. cbn [fst snd].
  by destruct (Promise_all rest w1) as [rs w2].
Qed.

Lemma fetch_all_calls cfgs w :
  ∃ new, calls (Promise_all (map fetch cfgs) w).2 = calls w ++ new
         ∧ new.*1 = mapping_request <$> cfgs.
Proof.
  revert w. induction cfgs as [|cfg cfgs IH]; intros w.
  - exists []. cbn. by rewrite app_nil_r.
  - cbn [map]. rewrite Promise_all_cons. cbn [snd].
    destruct (fetch_fieldTypes_call cfg w) as [o Ho].
    destruct (IH (fetch cfg w).2) as (new & Hnew & Hnames).
    exists ((mapping_request cfg, o) :: new). split.
    + by rewrite Hnew, Ho, <- app_assoc.
    + by rewrite !fmap_cons, Hnames.
Qed.

Lemma initialize_unfold w :
  initialize client w =
    match Promise_all (map fetch (indices (config (this w))))
            (initialize_begin w).2 with
    | (Fulfilled resultList, w2) => initialize_finish resultList w2
    | (Rejected e, w2) => (Rejected e, w2)
    | (Pending, w2) => (Pending, w2)
    end.
Proof. reflexivity. Qed.

(** How a run of [initialize] goes, by the state of the awaited
    promise. *)
Lemma initialize_run w :
  let w1 := (initialize_begin w).2 in
  let all := Promise_all (map fetch (indices (config (this w)))) w1 in
  this all.2 = cleared (this w)
  ∧ calls w1 = calls w
  ∧ engine w1 = engine w
  ∧ match all.1 with
    | Fulfilled resultList =>
        ∃ w3, initialize client w
                = (Fulfilled (Some (install ∅ resultList)), w3)
          ∧ this w3 = {| config := config (this w);
                         fieldTypes := Some (install ∅ resultList) |}
          ∧ calls w3 = calls all.2
    | Rejected e => initialize client w = (Rejected e, all.2)
    | Pending => initialize client w = (Pending, all.2)
    end.
Proof.
  intros w1 all. rewrite initialize_unfold. fold w1. fold all.
  pose proof (fetch_all_this client (indices (config (this w))) w1) as Hthis.
  fold all in Hthis. change (this w1) with (cleared (this w)) in Hthis.
  split_and!; [done..|].
  destruct all as [[resultList|e|] w2]; cbn [fst snd] in *; [|done..].
  destruct (initialize_finish_spec resultList w2 ∅)
    as (w3 & -> & Hw3 & Hcalls & _); [by rewrite Hthis|].
  exists w3. rewrite Hw3, Hthis. done.
Qed.

(** X3: [initialize] asks the engine for exactly one mapping per
    configured index, in the order of the configuration, each with the
    index and type of its entry, whichever of the requests fail. *)
Theorem initialize_requests_every_index w :
  (issued w (initialize client w).2).*1
  = mapping_request <$> indices (config (this w)).
Proof.
  destruct (initialize_run w) as (_ & Hc1 & _ & Hrun).
  destruct (fetch_all_calls (indices (config (this w))) (initialize_begin w).2)
    as (new & Hnew & Hnames).
  rewrite Hc1 in Hnew.
  destruct (Promise_all _ _).1 as [resultList|e|].
  - destruct Hrun as (w3 & -> & _ & Hcalls). cbn [snd].
    rewrite <- Hcalls in Hnew. by rewrite (issued_app _ _ _ Hnew).
  - rewrite Hrun. cbn [snd]. by rewrite (issued_app _ _ _ Hnew).
  - rewrite Hrun. cbn [snd]. by rewrite (issued_app _ _ _ Hnew).
Qed.

Lemma dom_install (ft : gmap string (option FieldTypeMap)) resultList :
  dom (install ft resultList) = dom ft ∪ list_to_set resultList.*1.
Proof.
  revert ft. induction resultList as [|res l IH]; intros ft.
  - cbn. by rewrite (right_id_L ∅ (∪)).
  - change (install ft (res :: l)) with (install (<[res.1 := res.2]> ft) l).
    rewrite IH, dom_insert_L, fmap_cons. cbn [list_to_set].
    rewrite (assoc_L (∪)). f_equal. apply (comm_L (∪)).
Qed.

(** X5: when [initialize] is fulfilled, its value is the cache it
    installed, the keys of that cache are exactly the configured index
    names, and the configuration is untouched. *)
Theorem initialize_fulfilled_keys w o :
  (initialize client w).1 = Fulfilled o →
  ∃ cache,
    o = Some cache
    ∧ fieldTypes (this (initialize client w).2) = Some cache
    ∧ config (this (initialize client w).2) = config (this w)
    ∧ dom cache = list_to_set (index <$> indices (config (this w))).
Proof.
  destruct (initialize_run w) as (_ & _ & _ & Hrun).
  pose proof (fetch_all_names client (indices (config (this w)))
                (initialize_begin w).2) as Hnames.
  destruct (Promise_all _ _).1 as [resultList|e|].
  - destruct Hrun as (w3 & -> & Hw3 & _). cbn [fst snd].
    intros [= <-]. exists (install ∅ resultList). rewrite Hw3.
    split_and!; [done..|].
    rewrite dom_install, dom_empty_L, (left_id_L ∅ (∪)).
    by rewrite (Hnames resultList eq_refl).
  - by rewrite Hrun.
  - by rewrite Hrun.
Qed.

(** X4: a response from which the field types cannot be read rejects the
    whole run.  When the mapping of the first configured index is
    answered with such a response, [initialize] is rejected with the
    error the handler threw, and the cache is left empty, whatever the
    other indices answer. *)
Theorem initialize_rejected_by_unreadable_mapping w cfg rest resp s e :
  indices (config (this w)) = cfg :: rest →
  client_getMapping client
    {| mapping_index := index cfg; mapping_type := type cfg |} (engine w)
    = (Replied resp, s) →
  fieldTypesOfMapping resp (type cfg) = Throw e →
  (initialize client w).1 = Rejected e
  ∧ this (initialize client w).2 = cleared (this w).
Proof.
  intros Hcfg Hreply Hthrow.
  destruct (initialize_run w) as (Hthis & _ & Heng & Hrun).
  revert Hthis Hrun. rewrite Hcfg. cbn [map]. rewrite Promise_all_cons.
  assert (Hfirst : (fetch cfg (initialize_begin w).2).1 = Rejected e).
  { rewrite initialize_begin_spec. cbn [snd].
    unfold fetch_fieldTypes, _getESFieldsTypes. run.
    change (engine (add_log _ _)) with (engine w).
    by rewrite Hreply, Hthrow. }
  rewrite Hfirst. cbn [fst snd]. intros Hthis ->. by rewrite <- Hthis.
Qed.
End InitializeRuns.

(** ** More on the lookups *)

Section PopulatedCache.
Implicit Types (es : ES) (cfg : IndexConfig).

Lemma NoDup_fmap_eq {A B} (f : A → B) (l : list A) (x y : A) :
  NoDup (f <$> l) → x ∈ l → y ∈ l → f x = f y → x = y.
Proof.
  induction l as [|a l IH]; intros Hnd Hx Hy Hf; [by apply elem_of_nil in Hx|].
  rewrite fmap_cons in Hnd. apply NoDup_cons in Hnd as [Ha Hnd].
  apply elem_of_cons in Hx as [->|Hx]; apply elem_of_cons in Hy as [->|Hy].
  - done.
  - exfalso. apply Ha. rewrite Hf. by apply list_elem_of_fmap_2.
  - exfalso. apply Ha. rewrite <- Hf. by apply list_elem_of_fmap_2.
  - by apply IH.
Qed.

(** The object [res] when every index in [cfgs] has a map: each gets a
    record holding its name, the keys of its map and the type of one of
    the entries that name it; the other keys are left as they were. *)
Lemma getESFields_res_complete es cfgs res :
  (∀ cfg, cfg ∈ cfgs →
     ∃ ft, getESFieldTypeMappingByIndex es (index cfg) = Return (Some ft)) →
  ∃ res', getESFields_res es cfgs res = Return res'
    ∧ dom res' = dom res ∪ list_to_set (index <$> cfgs)
    ∧ (∀ i, i ∉ index <$> cfgs → res' !! i = res !! i)
    ∧ (∀ cfg, cfg ∈ cfgs →
         ∃ r ft cfg',
           res' !! index cfg = Some r
           ∧ fields_index r = index cfg
           ∧ getESFieldTypeMappingByIndex es (index cfg) = Return (Some ft)
           ∧ fields r = ft.*1
           ∧ cfg' ∈ cfgs ∧ index cfg' = index cfg
           ∧ fields_type r = type cfg').
Proof.
  revert res. induction cfgs as [|c cfgs IH]; intros res Hall.
  - exists res. split_and!; [done| |done|].
    + cbn. by rewrite (right_id_L ∅ (∪)).
    + intros cfg Hin. by apply elem_of_nil in Hin.
  - destruct (Hall c (list_elem_of_here _ _)) as [ftc Hc].
    cbn [getESFields_res]. rewrite Hc.
    unfold mbind, completion_bind. cbn [Object_keys_of].
    set (rc := {| fields_index := index c; fields_type := type c;
                  fields := ftc.*1 |}).
    destruct (IH (<[index c := rc]> res)) as (res' & -> & Hdom & Hout & Hin).
    { intros cfg Hcfg. apply Hall. by apply list_elem_of_further. }
    exists res'. split_and!; [done| | |].
    + rewrite Hdom, dom_insert_L, fmap_cons. cbn [list_to_set].
      rewrite (assoc_L (∪)). f_equal. apply (comm_L (∪)).
    + intros i Hi. rewrite fmap_cons in Hi.
      apply not_elem_of_cons in Hi as [Hne Hi].
      rewrite (Hout i Hi). by rewrite lookup_insert_ne.
    + assert (Hlater : ∀ cfg, cfg ∈ cfgs →
        ∃ r ft cfg',
          res' !! index cfg = Some r ∧ fields_index r = index cfg
          ∧ getESFieldTypeMappingByIndex es (index cfg) = Return (Some ft)
          ∧ fields r = ft.*1
          ∧ cfg' ∈ c :: cfgs ∧ index cfg' = index cfg
          ∧ fields_type r = type cfg').
      { intros cfg Hcfg.
        destruct (Hin cfg Hcfg) as (r & ft & cfg' & ? & ? & ? & ? & ? & ? & ?).
        exists r, ft, cfg'. split_and!; try done.
        by apply list_elem_of_further. }
      intros cfg [->|Hcfg]%elem_of_cons; [|by apply Hlater].
      destruct (decide (index c ∈ index <$> cfgs)) as [Hdup|Hfresh].
      * apply list_elem_of_fmap in Hdup as (c2 & Heq & Hc2).
        destruct (Hlater c2 Hc2)
          as (r & ft & cfg' & Hr & Hi & Hft & Hf & Hcfg' & Hi' & Ht).
        rewrite <- Heq in Hr, Hi, Hft, Hi'.
        by exists r, ft, cfg'.
      * exists rc, ftc, c. rewrite (Hout _ Hfresh), lookup_insert_eq.
        split_and!; try done. apply list_elem_of_here.
Qed.


(** X15: the two lookups agree.  With a populated cache and no two
    entries sharing an index name, the index [getESIndexByType] returns
    for a type is one [getESFields] has a record for, and that record
    carries the type. *)
Theorem getESIndexByType_then_getESFields es esType i :
  populated es →
  NoDup (index <$> indices (config es)) →
  getESIndexByType es esType = Return i →
  ∃ r, getESFields es (Some i) = Return (OneIndex (Some r))
       ∧ fields_index r = i ∧ fields_type r = esType.
Proof.
  intros Hpop Hnd. unfold getESIndexByType.
  destruct (List.find _ _) as [found|] eqn:Hfind; [|done].
  intros [= <-]. apply find_some in Hfind as [Hin Ht].
  apply bool_decide_eq_true in Ht. apply list_elem_of_In in Hin.
  destruct (getESFields_res_complete es (indices (config es)) ∅ Hpop)
    as (res & Hres & _ & _ & Hall).
  destruct (Hall found Hin)
    as (r & ft & cfg' & Hr & Hi & _ & _ & Hcfg' & Hi' & Hty).
  exists r. unfold getESFields. rewrite Hres.
  unfold mbind, completion_bind. rewrite Hr. split_and!; [done..|].
  rewrite Hty, <- Ht. f_equal.
  by apply (NoDup_fmap_eq index (indices (config es))).
Qed.


End PopulatedCache.

(** ** More on [scrollQuery] and [query] *)

Section Exports.
Context {σ : Type} (client : Client σ) (SCROLL_PAGE_SIZE : N).
Implicit Types (w : World σ) (st : ScrollState) (first : SearchParams).

Abbreviation scrollQuery_ := (scrollQuery client SCROLL_PAGE_SIZE).
Abbreviation first_params := (scroll_params SCROLL_PAGE_SIZE).
Abbreviation loop_ := (scrollQuery_loop client).
Abbreviation turn_ := (scrollQuery_turn client).

Lemma turn_served first st w b s1 :
  next_page client first (scrollID st) (engine w)
    = (Replied {| body := b |}, s1) →
  ∃ w1 c, turn_ first st w = (Fulfilled (merge_batch st b), w1)
    ∧ engine w1 = s1 ∧ this w1 = this w
    ∧ calls w1 = calls w ++ [(c, Succeeded)]
    ∧ is_page_fetch (c, Succeeded) = true.
Proof.
  unfold next_page. destruct (scrollID st) as [id|] eqn:Hid; intros Hreply.
  - rewrite (turn_next _ _ _ _ _ _ _ Hid Hreply). by eexists _, _.
  - rewrite (turn_first _ _ _ _ _ _ Hid Hreply). by eexists _, _.
Qed.

Lemma documents_cons b pages :
  documents (b :: pages) = map _source (hits b) ++ documents pages.
Proof. reflexivity. Qed.

(** The loop over an engine that serves non-empty pages and then an empty
    one: it ends on the empty page, with the documents of the pages
    appended in order and the cursor of the empty page. *)
Lemma loop_serves first full last :
  ∀ st w s' fuel,
    scroll_continues st = true →
    serves client first (scrollID st) (engine w) (full ++ [last]) s' →
    Forall (λ b, hits b ≠ []) full → hits last = [] →
    length full < fuel →
    ∃ st' w',
      loop_ fuel first st w = (Fulfilled st', w')
      ∧ totalData st' = totalData st ++ documents full
      ∧ scrollID st' = _scroll_id last
      ∧ engine w' = s' ∧ this w' = this w
      ∧ ∃ new, calls w' = calls w ++ new
               ∧ length new = S (length full)
               ∧ Forall succeeded new
               ∧ Forall (λ ev, is_page_fetch ev = true) new.
Proof.
  induction full as [|b full IH]; intros st w s' fuel Hcont Hserves Hfull Hlast Hfuel.
  - destruct Hserves as (s1 & Hreply & ->).
    destruct fuel as [|fuel]; [cbn in Hfuel; lia|].
    destruct (turn_served _ _ _ _ _ Hreply) as (w1 & c & Hturn & He & Ht & Hc & Hp).
    rewrite (loop_turn _ _ _ _ _ Hcont), Hturn.
    rewrite loop_exit.
    2:{ unfold scroll_continues, merge_batch. cbn. by rewrite Hlast. }
    eexists _, w1. split; [done|]. cbn [merge_batch totalData scrollID].
    rewrite Hlast. split_and!; [done..|].
    exists [(c, Succeeded)]. split_and!; [done..| |]; by repeat constructor.
  - destruct Hserves as (s1 & Hreply & Hrest).
    apply Forall_cons in Hfull as [Hb Hfull].
    destruct fuel as [|fuel]; [cbn in Hfuel; lia|].
    destruct (turn_served _ _ _ _ _ Hreply) as (w1 & c & Hturn & He & Ht & Hc & Hp).
    rewrite (loop_turn _ _ _ _ _ Hcont), Hturn.
    destruct (IH (merge_batch st b) w1 s' fuel)
      as (st' & w' & Hloop & Hdata & Hid & He' & Ht' & new & Hnew & Hlen & Hok & Hpages).
    + unfold scroll_continues, merge_batch. cbn.
      destruct (hits b); [done|]. done.
    + cbn [merge_batch scrollID]. by rewrite He.
    + done.
    + done.
    + cbn in Hfuel. lia.
    + exists st', w'. split; [done|]. split_and!.
      * rewrite Hdata. cbn [merge_batch totalData].
        by rewrite documents_cons, app_assoc.
      * done.
      * done.
      * by rewrite Ht'.
      * exists ((c, Succeeded) :: new). split_and!.
        -- by rewrite Hnew, Hc, <- app_assoc.
        -- cbn. by rewrite Hlen.
        -- by constructor.
        -- by constructor.
Qed.

Lemma page_fetches_release_nothing (new : list (Call * Outcome)) :
  Forall (λ ev, is_page_fetch ev = true) new →
  omap (λ ev, match ev.1 with CClearScroll p => Some p | _ => None end) new
  = [].
Proof.
  induction 1 as [|[c o] l Hc _ IH]; [done|].
  cbn [omap list_omap]. rewrite IH.
  unfold is_page_fetch in Hc. cbn in *. by destruct c.
Qed.

(** X9: an export of any length.  When the request passes the checks and
    the engine serves non-empty pages followed by an empty one and then
    the release, [scrollQuery] is fulfilled with the documents of the
    pages in the order received, having made one request per page and
    one release, with the cursor of the empty page.  An empty first page
    gives the empty array, with the search and the release only. *)
Theorem scrollQuery_collects_all_pages
    fuel esIndex esType flt requested sort w full last s s' :
  scrollQuery_checks (this w) esIndex esType requested = Return () →
  serves client (first_params esIndex esType flt requested sort) None
    (engine w) (full ++ [last]) s →
  Forall (λ b, hits b ≠ []) full → hits last = [] →
  client_clearScroll client {| clear_scroll_id := _scroll_id last |} s
    = (Replied (), s') →
  length full < fuel →
  ∃ w',
    scrollQuery_ fuel esIndex esType flt requested sort w
      = (Fulfilled (documents full), w')
    ∧ engine w' = s'
    ∧ released w' = released w ++ [{| clear_scroll_id := _scroll_id last |}]
    ∧ length (issued w w') = length full + 2
    ∧ Forall succeeded (issued w w').
Proof.
  intros Hchecks Hserves Hfull Hlast Hclear Hfuel.
  rewrite (scrollQuery_checks_return _ _ _ _ _ _ _ _ _ Hchecks).
  set (w0 := add_log w _).
  destruct (loop_serves (first_params esIndex esType flt requested sort)
              full last scroll_start w0 s fuel)
    as (st' & w1 & Hloop & Hdata & Hid & He & _ & new & Hnew & Hlen & Hok & Hpages);
    [done..|].
  unfold mbind at 1, async_bind at 1. rewrite Hloop. run.
  cbn [add_log engine]. rewrite Hid, He, Hclear. cbn [scroll_start totalData] in Hdata.
  rewrite Hdata. eexists. split; [reflexivity|].
  assert (Hcalls : calls (add_log (add_call (add_log w1
      (LogDebug "[ES scrollQuery] end scrolling"))
      (CClearScroll {| clear_scroll_id := _scroll_id last |}) Succeeded s')
      (LogDebug "[ES scrollQuery] scroll cleaned"))
    = calls w ++ new ++
        [(CClearScroll {| clear_scroll_id := _scroll_id last |}, Succeeded)]).
  { cbn [add_log add_call calls]. by rewrite Hnew, <- app_assoc. }
  split_and!.
  - done.
  - by rewrite (released_app _ _ _ Hcalls), omap_app, page_fetches_release_nothing.
  - rewrite (issued_app _ _ _ Hcalls), length_app, Hlen. cbn. lia.
  - rewrite (issued_app _ _ _ Hcalls). apply Forall_app. split; [done|].
    by repeat constructor.
Qed.

(** X10: the release is awaited without a handler.  When every page has
    been fetched and the release request fails, the export is rejected
    with the transport error and the documents are not returned. *)
Theorem scrollQuery_rejected_by_failed_release
    fuel esIndex esType flt requested sort w full last s s' err :
  scrollQuery_checks (this w) esIndex esType requested = Return () →
  serves client (first_params esIndex esType flt requested sort) None
    (engine w) (full ++ [last]) s →
  Forall (λ b, hits b ≠ []) full → hits last = [] →
  client_clearScroll client {| clear_scroll_id := _scroll_id last |} s
    = (Failed err, s') →
  length full < fuel →
  (scrollQuery_ fuel esIndex esType flt requested sort w).1
    = Rejected (Upstream err).
Proof.
  intros Hchecks Hserves Hfull Hlast Hclear Hfuel.
  rewrite (scrollQuery_checks_return _ _ _ _ _ _ _ _ _ Hchecks).
  set (w0 := add_log w _).
  destruct (loop_serves (first_params esIndex esType flt requested sort)
              full last scroll_start w0 s fuel)
    as (st' & w1 & Hloop & _ & Hid & He & _); [done..|].
  unfold mbind at 1, async_bind at 1. rewrite Hloop. run.
  cbn [add_log engine]. by rewrite Hid, He, Hclear.
Qed.
End Exports.

Section Rejections.
Context {σ : Type} (client : Client σ) (SCROLL_PAGE_SIZE : N).
Implicit Types (w : World σ) (st : ScrollState) (es : ES).

Abbreviation scrollQuery_r := (scrollQuery client SCROLL_PAGE_SIZE).

Lemma getESFields_res_throws es cfgs res e :
  getESFields_res es cfgs res = Throw e → e = TypeError.
Proof.
  revert res. induction cfgs as [|c cfgs IH]; intros res; [done|].
  cbn [getESFields_res]. unfold mbind, completion_bind.
  unfold getESFieldTypeMappingByIndex.
  destruct (fieldTypes es) as [ft|]; [|by intros [= <-]].
  destruct (mjoin (ft !! index c)) as [m|]; cbn [Object_keys_of].
  - apply IH.
  - by intros [= <-].
Qed.

Lemma scrollQuery_checks_throws es esIndex esType requested e :
  scrollQuery_checks es esIndex esType requested = Throw e →
  e = TypeError ∨ ∃ msg, e = CodedError 400 msg.
Proof.
  unfold scrollQuery_checks.
  destruct (negb (truthy_name esIndex) || negb (truthy_name esType)).
  { intros [= <-]. right. by eexists. }
  unfold getESFields, mbind, completion_bind.
  destruct (getESFields_res es _ ∅) as [res|e'] eqn:Hres.
  2:{ intros [= <-]. left. by eapply getESFields_res_throws. }
  destruct esIndex as [i|].
  - destruct (res !! i) as [[ri rt rf]|]; [|intros [= <-]; by left].
    destruct (0 <? length (difference requested rf))%nat; [|done].
    intros [= <-]. right. by eexists.
  - intros [= <-]. by left.
Qed.

(** X12: a coded error means nothing was asked of the engine.  Whenever
    [scrollQuery] is rejected with a [CodedError], its code is 400 and the
    world is as it was before the call: the errors of the page requests
    and of the release are never coded. *)
Theorem scrollQuery_coded_error_before_any_request
    fuel esIndex esType flt requested sort w code msg w' :
  scrollQuery client SCROLL_PAGE_SIZE fuel esIndex esType flt requested sort w
    = (Rejected (CodedError code msg), w') →
  w' = w ∧ code = 400%Z.
Proof.
  destruct (scrollQuery_checks (this w) esIndex esType requested)
    as [[]|e] eqn:Hchecks.
  2:{ rewrite (scrollQuery_checks_throw _ _ _ _ _ _ _ _ _ _ Hchecks).
      intros [= -> <-].
      apply scrollQuery_checks_throws in Hchecks as [?|[m [= <-]]]; done. }
  rewrite (scrollQuery_checks_return _ _ _ _ _ _ _ _ _ Hchecks).
  set (w0 := add_log w _). set (first := scroll_params _ _ _ _ _ _).
  destruct (loop_trace client fuel first scroll_start w0)
    as (new & _ & _ & Hres).
  run.
  destruct (scrollQuery_loop client fuel first scroll_start w0)
    as [[st|e|] w1]; cbn [fst snd] in *.
  - cbn [add_log engine].
    by destruct (client_clearScroll client _ (engine w1)) as [[[]|err'] s].
  - intros [= -> _].
    destruct Hres as (init & c & err & _ & _ & [[_ ?]|[_ ?]]); done.
  - done.
Qed.

Lemma no_release_omap (new : list (Call * Outcome)) :
  Forall not_release new →
  omap (λ ev, match ev.1 with CClearScroll p => Some p | _ => None end) new
  = [].
Proof.
  induction 1 as [|[c o] l Hc _ IH]; [done|].
  cbn [omap list_omap]. rewrite IH.
  unfold not_release, is_clearScroll in Hc. cbn in *. by destruct c.
Qed.

Lemma loop_first_fetch fuel first st w st' :
  scroll_continues st = true →
  (scrollQuery_loop client fuel first st w).1 = Fulfilled st' →
  ∃ ev new, calls (scrollQuery_loop client fuel first st w).2
            = calls w ++ ev :: new.
Proof.
  intros Hcont. destruct fuel as [|fuel].
  { cbn [scrollQuery_loop]. by rewrite Hcont. }
  rewrite (loop_turn _ _ _ _ _ Hcont).
  destruct (turn_trace client first st w) as (c & o & Hc & _ & _).
  destruct (scrollQuery_turn client first st w) as [[st1|e|] w1];
    cbn [fst snd] in *; [|done..].
  destruct (loop_trace client fuel first st1 w1) as (new & Hnew & _).
  intros _. exists (c, o), new. by rewrite Hnew, Hc, <- app_assoc.
Qed.

(** X11: a fulfilled export has released its cursor.  Whenever
    [scrollQuery] is fulfilled, what it asked of the engine is one or more
    page requests, all answered, followed by exactly one release, also
    answered, as the last request. *)
Theorem scrollQuery_fulfilled_released_once
    fuel esIndex esType flt requested sort w docs w' :
  scrollQuery_r fuel esIndex esType flt requested sort w
    = (Fulfilled docs, w') →
  ∃ fetches p,
    issued w w' = fetches ++ [(CClearScroll p, Succeeded)]
    ∧ fetches ≠ []
    ∧ Forall succeeded fetches
    ∧ Forall not_release fetches
    ∧ released w' = released w ++ [p].
Proof.
  destruct (scrollQuery_checks (this w) esIndex esType requested)
    as [[]|e] eqn:Hchecks.
  2:{ by rewrite (scrollQuery_checks_throw _ _ _ _ _ _ _ _ _ _ Hchecks). }
  rewrite (scrollQuery_checks_return _ _ _ _ _ _ _ _ _ Hchecks).
  set (w0 := add_log w _). set (first := scroll_params _ _ _ _ _ _).
  destruct (loop_trace client fuel first scroll_start w0)
    as (new & Hnew & Hnr & Hres).
  pose proof (loop_first_fetch fuel first scroll_start w0) as Hfirst.
  change (calls w0) with (calls w) in Hnew, Hfirst.
  run.
  destruct (scrollQuery_loop client fuel first scroll_start w0)
    as [[st|e|] w1]; cbn [fst snd] in *; [|done..].
  cbn [add_log engine].
  destruct (client_clearScroll client _ (engine w1)) as [[[]|err'] s];
    [|done].
  intros [= _ <-].
  assert (Hcalls : calls (add_log (add_call (add_log w1
      (LogDebug "[ES scrollQuery] end scrolling"))
      (CClearScroll {| clear_scroll_id := scrollID st |}) Succeeded s)
      (LogDebug "[ES scrollQuery] scroll cleaned"))
    = calls w ++ new ++
        [(CClearScroll {| clear_scroll_id := scrollID st |}, Succeeded)]).
  { cbn [add_log add_call calls]. by rewrite Hnew, <- app_assoc. }
  exists new, {| clear_scroll_id := scrollID st |}.
  split_and!; [by rewrite (issued_app _ _ _ Hcalls)| |done..|].
  - destruct (Hfirst st eq_refl eq_refl) as (ev & rest & Hev).
    rewrite Hnew in Hev. apply app_inv_head in Hev. by subst new.
  - by rewrite (released_app _ _ _ Hcalls), omap_app, no_release_omap.
Qed.


(** X14: [query] never rejects and checks nothing.  For every index,
    type and body, whatever the cache holds, it makes exactly one search
    request and is fulfilled: with the body of the response when the
    request is answered, with [undefined] when it fails. *)
Theorem query_always_fulfils esIndex esType queryBody w :
  ∃ r o w',
    query client esIndex esType queryBody w = (Fulfilled r, w')
    ∧ this w' = this w
    ∧ issued w w' = [(CSearch (query_params esIndex esType queryBody), o)]
    ∧ match client_search client (query_params esIndex esType queryBody)
              (engine w) with
      | (Replied resp, s) => r = Some (body resp) ∧ o = Succeeded ∧ engine w' = s
      | (Failed err, s) => r = None ∧ o = FailedWith err ∧ engine w' = s
      end.
Proof.
  unfold query. run. cbn [add_log engine].
  destruct (client_search client _ (engine w)) as [[resp|err] s]; run;
    eexists _, _, _; (split; [reflexivity|]);
    split_and!; try done; by apply issued_app.
Qed.
End Rejections.

(** ** What the cache holds after [initialize] *)

Section Cache.
Context {σ : Type} (client : Client σ).
Implicit Types (w : World σ) (cfg : IndexConfig).

Abbreviation fetch' := (fetch_fieldTypes client).

(** X13: the cache is keyed by index name alone.  When two configured
    entries name the same index, the first mapping is fetched and the
    second fetch fails, the one entry of the cache holds [undefined]: the
    later result overwrites the earlier one. *)
Theorem initialize_same_index_overwritten w A B respA ft err s1 s2 :
  indices (config (this w)) = [A; B] →
  index A = index B →
  client_getMapping client
    {| mapping_index := index A; mapping_type := type A |} (engine w)
    = (Replied respA, s1) →
  fieldTypesOfMapping respA (type A) = Return ft →
  client_getMapping client
    {| mapping_index := index B; mapping_type := type B |} s1
    = (Failed err, s2) →
  ∃ cache,
    (initialize client w).1 = Fulfilled (Some cache)
    ∧ cache !! index A = Some None
    ∧ dom cache = {[index A]}.
Proof.
  intros Hcfg Hsame HA Hft HB.
  rewrite initialize_unfold, initialize_begin_spec, Hcfg. cbn [snd map].
  set (w1 := add_log _ _). cbn [Promise_all].
  erewrite fetch_fieldTypes_replied; [|exact HA|exact Hft].
  erewrite fetch_fieldTypes_failed; [|exact HB]. run.
  destruct (initialize_finish_spec [(index A, Some ft); (index B, None)]
    (add_log (add_call (add_call w1 (mapping_request A) Succeeded s1)
       (mapping_request B) (FailedWith err) s2) (ConsoleTrace (message err))) ∅)
    as (w3 & Hfin & _); [done|].
  unfold mapping_request in Hfin. rewrite Hfin. cbn [fst].
  eexists. split; [reflexivity|]. unfold install. cbn. rewrite <- Hsame.
  split; [by rewrite lookup_insert_eq|].
  rewrite !dom_insert_L, dom_empty_L, (right_id_L ∅ (∪)).
  apply (idemp_L (∪)).
Qed.



Lemma install_defined (m : gmap string (option FieldTypeMap)) rl i :
  Forall (λ res, is_Some res.2) rl →
  i ∈ rl.*1 ∨ (∃ ft, m !! i = Some (Some ft)) →
  ∃ ft, install m rl !! i = Some (Some ft).
Proof.
  intros Hall. revert m. induction Hall as [|[k v] rl [ftv Hv] _ IH]; intros m.
  - intros [Hin|Hm]; [by apply elem_of_nil in Hin|done].
  - cbn in Hv. subst v.
    change (install m ((k, Some ftv) :: rl))
      with (install (<[k := Some ftv]> m) rl).
    rewrite fmap_cons. cbn [fst]. intros Hi. apply IH.
    destruct (decide (i ∈ rl.*1)) as [|Hout]; [by left|]. right.
    destruct (decide (k = i)) as [->|Hne].
    + exists ftv. by rewrite lookup_insert_eq.
    + rewrite lookup_insert_ne by done.
      destruct Hi as [[->|?]%elem_of_cons|Hm]; done.
Qed.

Lemma fetch_fieldTypes_answered cfg w :
  answers_mappings client →
  ∃ ft, (fetch' cfg w).1 = Fulfilled (index cfg, Some ft).
Proof.
  intros Hans. unfold fetch_fieldTypes, _getESFieldsTypes. run.
  destruct (Hans {| mapping_index := index cfg; mapping_type := type cfg |}
              (engine w)) as (resp & s & ft & -> & Hft).
  cbn in Hft. rewrite Hft. by eexists.
Qed.

(** X16: [initialize] establishes what the lookups need.  With an engine
    that answers every mapping request readably, [initialize] is
    fulfilled and leaves a populated cache, after which [getESFields]
    returns for every argument. *)
Theorem initialize_populates w :
  answers_mappings client →
  ∃ cache w',
    initialize client w = (Fulfilled (Some cache), w')
    ∧ populated (this w')
    ∧ ∀ esIndex, ∃ r, getESFields (this w') esIndex = Return r.
Proof.
  intros Hans.
  assert (Hall : ∀ cfgs w0,
    ∃ rl, (Promise_all (map fetch' cfgs) w0).1 = Fulfilled rl
          ∧ Forall (λ res, is_Some res.2) rl).
  { induction cfgs as [|cfg cfgs IH]; intros w0; [by eexists|].
    cbn [map]. rewrite Promise_all_cons. cbn [fst].
    destruct (fetch_fieldTypes_answered cfg w0 Hans) as [ft ->].
    destruct (IH (fetch' cfg w0).2) as (rl & -> & Hrl).
    eexists. split; [done|]. constructor; [by eexists|done]. }
  destruct (initialize_run client w) as (_ & _ & _ & Hrun).
  pose proof (fetch_all_names client (indices (config (this w)))
                (initialize_begin w).2) as Hnames.
  destruct (Hall (indices (config (this w))) (initialize_begin w).2)
    as (rl & Hrl & Hsome).
  rewrite Hrl in Hrun. destruct Hrun as (w3 & Hinit & Hw3 & _).
  specialize (Hnames rl Hrl).
  assert (Hpop : populated (this w3)).
  { intros cfg Hcfg. rewrite Hw3 in Hcfg |- *. cbn in Hcfg.
    unfold getESFieldTypeMappingByIndex. cbn [fieldTypes].
    destruct (install_defined ∅ rl (index cfg) Hsome) as [ft Hft].
    - left. rewrite Hnames. by apply list_elem_of_fmap_2.
    - exists ft. by rewrite Hft. }
  exists (install ∅ rl), w3. split_and!; [done..|].
  destruct (getESFields_res_complete (this w3) (indices (config (this w3))) ∅ Hpop)
    as (res & Hres & _).
  intros esIndex. unfold getESFields. rewrite Hres.
  destruct esIndex; by eexists.
Qed.
End Cache.

Section CacheRoundTrip.
Context {σ : Type} (client : Client σ).
Implicit Types (w : World σ) (cfg : IndexConfig).

Abbreviation fetch'' := (fetch_fieldTypes client).

Lemma fetch_fieldTypes_fetched cfg w reply s res :
  client_getMapping client
    {| mapping_index := index cfg; mapping_type := type cfg |} (engine w)
    = (reply, s) →
  fetched reply (type cfg) res →
  ∃ w', fetch'' cfg w = (Fulfilled (index cfg, res), w') ∧ engine w' = s.
Proof.
  intros Hreply Hres. destruct reply as [resp|err].
  - destruct Hres as (ft & Hft & ->).
    rewrite (fetch_fieldTypes_replied _ _ _ _ _ _ Hreply Hft). by eexists.
  - cbn in Hres. subst res.
    rewrite (fetch_fieldTypes_failed _ _ _ _ _ Hreply). by eexists.
Qed.

Lemma fetch_all_served cfgs :
  ∀ w results s',
    mappings_served client cfgs (engine w) results s' →
    ∃ w', Promise_all (map fetch'' cfgs) w
            = (Fulfilled (zip (index <$> cfgs) results), w')
          ∧ engine w' = s'.
Proof.
  induction cfgs as [|cfg cfgs IH]; intros w [|res results] s' Hserved;
    try done.
  - cbn in Hserved. subst s'. by eexists.
  - destruct Hserved as (reply & s1 & Hreply & Hres & Hrest).
    destruct (fetch_fieldTypes_fetched _ _ _ _ _ Hreply Hres) as (w1 & Hw1 & He).
    rewrite <- He in Hrest. destruct (IH w1 results s' Hrest) as (w2 & Hw2 & He2).
    cbn [map]. rewrite Promise_all_cons, Hw1. cbn [fst snd]. rewrite Hw2.
    by eexists.
Qed.

Lemma install_lookup_notin (m : gmap string (option FieldTypeMap)) rl i :
  i ∉ rl.*1 → install m rl !! i = m !! i.
Proof.
  revert m. induction rl as [|[k v] rl IH]; intros m Hout; [done|].
  rewrite fmap_cons in Hout. apply not_elem_of_cons in Hout as [Hne Hout].
  change (install m ((k, v) :: rl)) with (install (<[k := v]> m) rl).
  rewrite IH by done. by rewrite lookup_insert_ne.
Qed.

Lemma install_lookup_zip (m : gmap string (option FieldTypeMap))
    (names : list string) (results : list (option FieldTypeMap)) k i res :
  NoDup names → names !! k = Some i → results !! k = Some res →
  install m (zip names results) !! i = Some res.
Proof.
  revert m results k.
  induction names as [|n names IH]; intros m [|r results] k Hnd Hi Hres;
    try done.
  apply NoDup_cons in Hnd as [Hn Hnd].
  change (install m (zip (n :: names) (r :: results)))
    with (install (<[n := r]> m) (zip names results)).
  destruct k as [|k]; cbn in Hi, Hres.
  - injection Hi as ->. injection Hres as ->.
    rewrite install_lookup_notin; [by rewrite lookup_insert_eq|].
    intros Hin. apply Hn. apply list_elem_of_fmap in Hin as ([a b] & -> & Hab).
    by apply elem_of_zip_l in Hab.
  - by eapply IH.
Qed.

(** X18: the cache gives back what was fetched.  Over any number of
    configured entries with distinct index names, when the mapping
    requests settle so that they resolve to [results], [initialize] is
    fulfilled and reading the cache at the index of the k-th entry gives
    the k-th result: the field types read from its response, or
    [undefined] when its request failed. *)
Theorem initialize_then_lookup w results s' :
  NoDup (index <$> indices (config (this w))) →
  mappings_served client (indices (config (this w))) (engine w) results s' →
  ∃ cache w',
    initialize client w = (Fulfilled (Some cache), w')
    ∧ engine w' = s'
    ∧ ∀ k cfg res,
        indices (config (this w)) !! k = Some cfg →
        results !! k = Some res →
        cache !! index cfg = Some res
        ∧ getESFieldTypeMappingByIndex (this w') (index cfg) = Return res.
Proof.
  intros Hnd Hserved.
  pose proof (fetch_all_this client (indices (config (this w)))
                (initialize_begin w).2) as Hthis.
  destruct (fetch_all_served (indices (config (this w)))
              (initialize_begin w).2 results s' Hserved)
    as (w2 & Heq & He).
  rewrite Heq in Hthis. cbn [snd] in Hthis.
  rewrite initialize_unfold, Heq.
  destruct (initialize_finish_spec
              (zip (index <$> indices (config (this w))) results) w2 ∅)
    as (w3 & -> & Hw3 & _ & He3); [by rewrite Hthis|].
  eexists _, w3. split; [reflexivity|]. split; [by rewrite He3|].
  intros k cfg res Hcfg Hres.
  assert (Hlook : install ∅ (zip (index <$> indices (config (this w))) results)
                    !! index cfg = Some res).
  { eapply install_lookup_zip; [done| |done].
    by rewrite list_lookup_fmap, Hcfg. }
  split; [done|]. rewrite Hw3. unfold getESFieldTypeMappingByIndex.
  cbn [fieldTypes]. by rewrite Hlook.
Qed.
End CacheRoundTrip.

(** * The further properties on the fixtures *)

Lemma fieldTypesOfMapping_well_formed_witness :
  fieldTypesOfMapping subject_mapping "case" = Return ftA.
Proof.
  apply (fieldTypesOfMapping_well_formed subject_mapping "case" "subject_1"
           {| mappings :=
                [("case",
                  {| properties :=
                       Some [("gender", {| field_type := Some "keyword" |});
                             ("age", {| field_type := Some "integer" |})] |})] |}
           []
           {| properties :=
                Some [("gender", {| field_type := Some "keyword" |});
                      ("age", {| field_type := Some "integer" |})] |}
           [("gender", {| field_type := Some "keyword" |});
            ("age", {| field_type := Some "integer" |})]).
  - reflexivity.
  - reflexivity.
  - reflexivity.
  - apply (bool_decide_unpack _). vm_compute. exact I.
Defined.


Lemma initialize_rejected_by_unreadable_mapping_witness :
  (initialize scripted world_unreadable).1 = Rejected TypeError
  ∧ this (initialize scripted world_unreadable).2 = cleared es_fresh.
Proof.
  apply (initialize_rejected_by_unreadable_mapping scripted world_unreadable
           cfgA [cfgB] {| mapping_body := [] |}
           [mapping_of "file_1" "file" [("file_id", "keyword")]] TypeError).
  - reflexivity.
  - reflexivity.
  - reflexivity.
Defined.

Lemma initialize_fulfilled_keys_witness :
  ∃ cache,
    Some (<["file" := None]> (<["subject" := Some ftA]> ∅)) = Some cache
    ∧ fieldTypes (this (initialize scripted world_B_down).2) = Some cache
    ∧ config (this (initialize scripted world_B_down).2) = config_AB
    ∧ dom cache = list_to_set (index <$> [cfgA; cfgB]).
Proof.
  apply (initialize_fulfilled_keys scripted world_B_down
           (Some (<["file" := None]> (<["subject" := Some ftA]> ∅)))).
  reflexivity.
Defined.

Lemma es_ready_populated : populated es_ready.
Proof.
  intros cfg Hin.
  apply elem_of_cons in Hin as [->|Hin]; [by exists ftA|].
  apply elem_of_cons in Hin as [->|Hin]; [by exists ftB|].
  by apply elem_of_nil in Hin.
Qed.

Lemma config_AB_distinct : NoDup (index <$> indices (config es_ready)).
Proof. apply (bool_decide_unpack _). vm_compute. exact I. Qed.


Lemma getESIndexByType_then_getESFields_witness :
  ∃ r, getESFields es_ready (Some "file") = Return (OneIndex (Some r))
       ∧ fields_index r = "file" ∧ fields_type r = "file".
Proof.
  apply (getESIndexByType_then_getESFields es_ready "file" "file"
           es_ready_populated config_AB_distinct).
  reflexivity.
Defined.



Lemma scrollQuery_collects_all_pages_witness :
  ∃ w',
    export 3 world_pages = (Fulfilled [doc 1; doc 2; doc 3; doc 4], w')
    ∧ engine w' = []
    ∧ released w' = [{| clear_scroll_id := Some "c3" |}]
    ∧ length (issued world_pages w') = 4
    ∧ Forall succeeded (issued world_pages w').
Proof.
  apply (scrollQuery_collects_all_pages scripted 100 3 (Some "subject")
           (Some "case") JUndefined age_fields JUndefined world_pages
           [page_body "c1" [doc 1; doc 2]; page_body "c2" [doc 3; doc 4]]
           (page_body "c3" []) [SCleared (Replied ())] []).
  - reflexivity.
  - cbn. eexists. split; [reflexivity|].
    eexists. split; [reflexivity|].
    eexists. split; reflexivity.
  - repeat constructor; discriminate.
  - reflexivity.
  - reflexivity.
  - cbn. lia.
Defined.

Lemma scrollQuery_rejected_by_failed_release_witness :
  (export 3 world_release_down).1 = Rejected (Upstream down).
Proof.
  apply (scrollQuery_rejected_by_failed_release scripted 100 3 (Some "subject")
           (Some "case") JUndefined age_fields JUndefined world_release_down
           [page_body "c1" [doc 1; doc 2]] (page_body "c2" [])
           [SCleared (Failed down)] [] down).
  - reflexivity.
  - cbn. eexists. split; [reflexivity|].
    eexists. split; reflexivity.
  - repeat constructor; discriminate.
  - reflexivity.
  - reflexivity.
  - cbn. lia.
Defined.

Lemma scrollQuery_fulfilled_released_once_witness :
  ∃ fetches p,
    issued world_pages (export 3 world_pages).2
      = fetches ++ [(CClearScroll p, Succeeded)]
    ∧ fetches ≠ []
    ∧ Forall succeeded fetches
    ∧ Forall not_release fetches
    ∧ released (export 3 world_pages).2 = released world_pages ++ [p].
Proof.
  apply (scrollQuery_fulfilled_released_once scripted 100 3 (Some "subject")
           (Some "case") JUndefined age_fields JUndefined world_pages
           [doc 1; doc 2; doc 3; doc 4] (export 3 world_pages).2).
  reflexivity.
Defined.

Lemma scrollQuery_coded_error_before_any_request_witness :
  world_pages = world_pages ∧ 400%Z = 400%Z.
Proof.
  apply (scrollQuery_coded_error_before_any_request scripted 100 3
           (Some "subject") None JUndefined age_fields JUndefined world_pages
           400 "Invalid es index or es type name" world_pages).
  reflexivity.
Defined.

Lemma initialize_same_index_overwritten_witness :
  ∃ cache,
    (initialize scripted world_same_index).1 = Fulfilled (Some cache)
    ∧ cache !! "subject" = Some None
    ∧ dom cache = {["subject"]}.
Proof.
  apply (initialize_same_index_overwritten scripted world_same_index
           cfgA cfgA2 subject_mapping ftA down [SMapping (Failed down)] []).
  - reflexivity.
  - reflexivity.
  - reflexivity.
  - reflexivity.
  - reflexivity.
Defined.

Lemma steady_readable :
  ∀ p (s : ()), fieldTypesOfMapping (steady_mapping p) (mapping_type p)
                = Return [("id", Some "keyword")].
Proof.
  intros p s. unfold fieldTypesOfMapping, steady_mapping.
  cbn [mapping_body fmap list_fmap head fst lookup_key].
  rewrite decide_True by done. cbn [mappings lookup_key].
  by rewrite decide_True by done.
Qed.


Lemma initialize_populates_witness :
  ∃ cache w',
    initialize steady steady_world = (Fulfilled (Some cache), w')
    ∧ populated (this w')
    ∧ ∀ esIndex, ∃ r, getESFields (this w') esIndex = Return r.
Proof.
  apply (initialize_populates steady steady_world).
  intros p s. exists (steady_mapping p), s, [("id", Some "keyword")].
  split; [reflexivity|]. apply (steady_readable p s).
Defined.

Lemma initialize_then_lookup_witness :
  ∃ cache w',
    initialize scripted world_B_down = (Fulfilled (Some cache), w')
    ∧ engine w' = []
    ∧ ∀ k cfg res,
        [cfgA; cfgB] !! k = Some cfg →
        [Some ftA; None] !! k = Some res →
        cache !! index cfg = Some res
        ∧ getESFieldTypeMappingByIndex (this w') (index cfg) = Return res.
Proof.
  apply (initialize_then_lookup scripted world_B_down [Some ftA; None] []).
  - apply (bool_decide_unpack _). vm_compute. exact I.
  - cbn. eexists _, _. split; [reflexivity|]. split.
    + exists ftA. split; reflexivity.
    + eexists _, _. split; [reflexivity|]. split; reflexivity.
Defined.
